(** * Resource decoding pipeline of klient/k8s/resources (decoder.go)

    A shallow embedding of the decoding functions of the e2e-framework
    [resources] package: the file resolver [listResourceFiles], the
    single- and multi-document decoders, the patch functions
    ([MutateFunc]) and the handler builders ([HandlerFunc]).

    Go objects are pointers: they live in a heap of cells and the Go
    functions become state-passing functions over a [Store].  The
    collaborators that are outside the package (the file system, the
    path library, the scheme's deserializer, the resource client) are
    interfaces here: records and type classes the functions take as
    arguments. *)

From Stdlib Require Import String Ascii.
From stdpp Require Import base option list sorting gmap sets strings.

#[local] Set Warnings "-clear-no-such-hyp".

Local Open Scope string_scope.
Local Open Scope list_scope.

(** ** Errors *)

(** A Go [error].  The classes are the ones the package tests for
    ([io.EOF], [runtime.IsNotRegisteredError], [apierrors.IsNotFound],
    [apierrors.IsAlreadyExists]); [Errorf] is an error built by
    [fmt.Errorf] from a format and its arguments. *)
Inductive error : Type :=
  | EOF
  | Errorf (format : string) (args : list string)
  | ErrNotRegistered (what : string)
  | ErrNotFound (what : string)
  | ErrAlreadyExists (what : string)
  | ErrOther (msg : string).

Global Instance error_eq_dec : EqDecision error.
Proof. solve_decision. Defined.

Definition IsNotRegisteredError (err : option error) : bool :=
  match err with Some (ErrNotRegistered _) => true | _ => false end.

Definition IsNotFound (err : error) : bool :=
  match err with ErrNotFound _ => true | _ => false end.

Definition IsAlreadyExists (err : error) : bool :=
  match err with ErrAlreadyExists _ => true | _ => false end.

(** ** Paths and the file system *)

(** [filepath.Base], [filepath.Dir] and [filepath.Join]. *)
Class PathLib := {
  Base : string → string;
  Dir : string → string;
  Join : string → string → string;
}.

(** One read of a document stream: the bytes of the next document, or
    the error of the underlying reader.  The end of the list is
    [io.EOF]. *)
Inductive Chunk : Type :=
  | Doc (b : string)
  | ReadError (e : error).

Definition Stream := list Chunk.

Record FileInfo := { IsDir : bool; Name : string }.

(** The file system as the package sees it: [os.Stat], the names
    [Readdirnames] enumerates for a directory (in the order of the file
    system), [os.Open] followed by the split of the file into documents,
    and [GlobMagic], the result of [filepath.Glob] for a pattern whose
    directory or file-name prefix itself holds pattern characters. *)
Record FileSystem := {
  Stat : string → error + FileInfo;
  Readdirnames : string → list string;
  Open : string → error + Stream;
  GlobMagic : string → string → string → list string * option error;
}.

(** The pattern characters of [filepath]: [hasMeta]. *)
Definition magicChars : list ascii := ["*"; "?"; "["; "\"]%char.

Definition hasMeta (path : string) : bool :=
  existsb (λ c, bool_decide (c ∈ magicChars)) (list_ascii_of_string path).

(** [filepath.Match] of a name against the pattern [base*ext] with a
    literal [base]: the name starts with [base] and what follows it ends
    with [ext]. *)
Definition matchStar (base ext name : string) : bool :=
  let n := list_ascii_of_string name in
  let b := list_ascii_of_string base in
  bool_decide (b `prefix_of` n) &&
  bool_decide (list_ascii_of_string ext `suffix_of` drop (length b) n).

(** [sort.Strings]: ascending in the byte order of strings. *)
Definition sortStrings (l : list string) : list string :=
  merge_sort String.le l.

Section Resolver.
Context `{!PathLib}.
Variable fs : FileSystem.

Definition isDirectory (dir : string) : bool :=
  match Stat fs dir with
  | inl _ => false
  | inr d => IsDir d
  end.

(** [glob(dir, pattern, nil)] of [path/filepath]: the sorted names of
    [dir] that match, joined to [dir]; nothing when [dir] is not a
    directory. *)
Definition glob (dir base ext : string) : list string :=
  match Stat fs dir with
  | inl _ => []
  | inr fi =>
      if IsDir fi
      then Join dir <$> filter (λ n, matchStar base ext n = true)
                               (sortStrings (Readdirnames fs dir))
      else []
  end.

(** [filepath.Glob(filepath.Join(dir, base ++ "*" ++ ext))]. *)
Definition Glob (dir base ext : string) : list string * option error :=
  if hasMeta dir || hasMeta base
  then GlobMagic fs dir base ext
  else (glob dir base ext, None).

Definition listResourceFiles (directory : string)
  : list string * option error :=
  let continue (directory base : string) :=
    let '(yamls, err) := Glob directory base ".yaml" in
    if err is Some e then ([], Some e) else
    let '(ymls, err) := Glob directory base ".yml" in
    if err is Some e then ([], Some e) else
    let '(jsons, err) := Glob directory base ".json" in
    if err is Some e then ([], Some e) else
    let filenames := yamls ++ (ymls ++ jsons) in
    (sortStrings filenames, None) in
  match Stat fs directory with
  | inl _ =>
      let base := Base directory in
      let directory := Dir directory in
      if negb (isDirectory directory)
      then ([], Some (Errorf
             "files with prefix %q in directory %q could not be found"
             [base; directory]))
      else continue directory base
  | inr dir =>
      if IsDir dir then continue directory ""
      else ([], Some (Errorf "%q is not a directory. not supported"
                             [Name dir]))
  end.
End Resolver.

(** The two ways a path designates files: an existing directory (no
    prefix), or a path that does not resolve whose parent is a directory
    (its base name is the prefix). *)
Inductive resolvesTo `{!PathLib} (fs : FileSystem) (path : string)
  : string → string → Prop :=
  | resolves_directory fi :
      Stat fs path = inr fi → IsDir fi = true →
      resolvesTo fs path path ""
  | resolves_prefix e :
      Stat fs path = inl e → isDirectory fs (Dir path) = true →
      resolvesTo fs path (Dir path) (Base path).


(** The recognised extensions. *)
Definition extensions : list string := [".yaml"; ".yml"; ".json"].

(** A name that starts with [base] and goes on to end in a recognised
    extension. *)
Definition candidate (base name : string) : Prop :=
  ∃ mid ext, ext ∈ extensions ∧ name = base +:+ mid +:+ ext.

(** ** Objects and the store *)

Definition loc := positive.

(** A decoded JSON/YAML value, as the generic representation holds it
    ([map[string]interface{}] and friends). *)
#[local] Unset Elimination Schemes.
Inductive JSON : Type :=
  | JNull
  | JBool (b : bool)
  | JNumber (n : Z)
  | JString (s : string)
  | JArray (items : list JSON)
  | JObject (fields : list (string * JSON)).
#[local] Set Elimination Schemes.

Record GroupVersionKind := { Group : string; Version : string; Kind : string }.

(** What an object holds besides its metadata: the fields of a Go type
    registered with the scheme, or the [Object] map of an
    [unstructured.Unstructured]. *)
Inductive Content : Type :=
  | Typed (gvk : GroupVersionKind) (fields : gmap string JSON)
  | Unstructured (Object : gmap string JSON).

(** [metav1.ObjectMeta] as it lies in memory: the label and annotation
    maps are Go maps, that is references ([None] is the nil map). *)
Record ObjectMeta := {
  metaName : string;
  metaNamespace : string;
  Labels : option loc;
  Annotations : option loc;
}.

Inductive Cell : Type :=
  | MapCell (m : gmap string string)
  | ObjCell (meta : ObjectMeta) (content : Content).

(** The value of an object with its maps read out of the heap. *)
Record MetaValue := {
  vName : string;
  vNamespace : string;
  vLabels : option (gmap string string);
  vAnnotations : option (gmap string string);
}.

Record ObjValue := { vMeta : MetaValue; vContent : Content }.

(** What a deserializer returns: a [runtime.Object].  Only some of them
    are [k8s.Object]s (they also carry object metadata); a list or a
    status object is not. *)
Inductive RuntimeObject : Type :=
  | K8sObject (v : ObjValue)
  | OtherObject (gvk : GroupVersionKind) (fields : gmap string JSON).

(** The decoding libraries behind the package:
    - [k8sDecoder] is
      [serializer.NewCodecFactory(scheme.Scheme).UniversalDeserializer().Decode];
    - [yamlUnmarshal] is [yaml.Unmarshal] into an empty
      [unstructured.Unstructured], giving its [Object] map, and
      [unstructuredMeta] is the metadata the accessors of that object
      report;
    - [decodeInto] is [yaml.NewYAMLOrJSONDecoder(..).Decode(obj)] on the
      value of [obj]. *)
Class Codec := {
  k8sDecoder : string → option GroupVersionKind →
               option RuntimeObject * option error;
  yamlUnmarshal : string → error + gmap string JSON;
  unstructuredMeta : gmap string JSON → MetaValue;
  decodeInto : string → ObjValue → error + ObjValue;
}.

Definition unstructuredValue `{!Codec} (m : gmap string JSON) : ObjValue :=
  {| vMeta := unstructuredMeta m; vContent := Unstructured m |}.

Section Store.
(** [W] is the state outside the heap that patches and handlers can
    reach: the cluster behind the resource client, variables captured
    by closures. *)
Context {W : Type}.

Record World := mkWorld { heap : gmap loc Cell; ext : W }.

(** A computation of a callback or of a heap primitive. *)
Definition Ext (A : Type) : Type := World → A * World.

(** An invocation of the handler by a decoder, with what it returned. *)
Inductive Event : Type :=
  | EvHandler (obj : option loc) (err : option error).

(** The store of the decoders: the world and the log of the handler
    invocations made so far.  Callbacks run on the world alone. *)
Record Store := mkStore { world : World; calls : list Event }.

Definition M (A : Type) : Type := Store → A * Store.

Definition ret {A} (a : A) : M A := λ s, (a, s).
Definition bind {A B} (c : M A) (k : A → M B) : M B :=
  λ s, let '(a, s') := c s in k a s'.
Definition lift {A} (c : Ext A) : M A :=
  λ s, let '(a, w') := c (world s) in (a, mkStore w' (calls s)).
Definition emit (e : Event) : M unit :=
  λ s, (tt, mkStore (world s) (calls s ++ [e])).

Definition eret {A} (a : A) : Ext A := λ w, (a, w).
Definition ebind {A B} (c : Ext A) (k : A → Ext B) : Ext B :=
  λ w, let '(a, w') := c w in k a w'.
End Store.

Arguments World : clear implicits.
Arguments Ext : clear implicits.
Arguments Store : clear implicits.
Arguments M : clear implicits.

Declare Scope go_scope.
Delimit Scope go_scope with go.
Notation "x <- c ;; k" := (bind c (λ x, k))
  (at level 100, c at next level, right associativity) : go_scope.
Notation "c1 ;; c2" := (bind c1 (λ _, c2))
  (at level 100, right associativity) : go_scope.
Notation "x <~ c ;; k" := (ebind c (λ x, k))
  (at level 100, c at next level, right associativity) : go_scope.
Notation "c1 ;;; c2" := (ebind c1 (λ _, c2))
  (at level 100, right associativity) : go_scope.

Local Open Scope go_scope.

(** ** Heap primitives *)

Section Heap.
Context {W : Type}.

Definition setHeap (h : gmap loc Cell) (w : World W) : World W :=
  mkWorld h (ext w).

(** Allocation ([new], [make], a composite literal): the next free
    location receives the cell. *)
Definition new (c : Cell) : Ext W loc := λ w,
  let l := fresh (dom (heap w)) in
  (l, setHeap (<[l := c]> (heap w)) w).

Definition readMap (h : gmap loc Cell) (r : option loc)
  : option (option (gmap string string)) :=
  match r with
  | None => Some None
  | Some r =>
      match h !! r with
      | Some (MapCell m) => Some (Some m)
      | _ => None
      end
  end.

(** The value of the object at [obj], when [obj] points to an object
    whose maps are in the heap. *)
Definition obj_value (h : gmap loc Cell) (obj : loc) : option ObjValue :=
  match h !! obj with
  | Some (ObjCell meta content) =>
      match readMap h (Labels meta), readMap h (Annotations meta) with
      | Some labels, Some annotations =>
          Some {| vMeta := {| vName := metaName meta;
                              vNamespace := metaNamespace meta;
                              vLabels := labels;
                              vAnnotations := annotations |};
                  vContent := content |}
      | _, _ => None
      end
  | _ => None
  end.

(** The accessors of [metav1.Object], as [metav1.ObjectMeta]
    implements them: a getter returns the map reference held by the
    object, a setter stores the reference it is given.  On a location
    that holds no object they do nothing (a Go pointer never is one). *)
Definition GetLabels (obj : loc) : Ext W (option loc) := λ w,
  match heap w !! obj with
  | Some (ObjCell meta _) => (Labels meta, w)
  | _ => (None, w)
  end.

Definition GetAnnotations (obj : loc) : Ext W (option loc) := λ w,
  match heap w !! obj with
  | Some (ObjCell meta _) => (Annotations meta, w)
  | _ => (None, w)
  end.

Definition SetLabels (obj : loc) (labels : option loc) : Ext W unit := λ w,
  match heap w !! obj with
  | Some (ObjCell meta content) =>
      (tt, setHeap (<[obj := ObjCell {| metaName := metaName meta;
                                        metaNamespace := metaNamespace meta;
                                        Labels := labels;
                                        Annotations := Annotations meta |}
                                     content]> (heap w)) w)
  | _ => (tt, w)
  end.

Definition SetAnnotations (obj : loc) (annotations : option loc)
  : Ext W unit := λ w,
  match heap w !! obj with
  | Some (ObjCell meta content) =>
      (tt, setHeap (<[obj := ObjCell {| metaName := metaName meta;
                                        metaNamespace := metaNamespace meta;
                                        Labels := Labels meta;
                                        Annotations := annotations |}
                                     content]> (heap w)) w)
  | _ => (tt, w)
  end.

Definition SetNamespace (obj : loc) (namespace : string) : Ext W unit := λ w,
  match heap w !! obj with
  | Some (ObjCell meta content) =>
      (tt, setHeap (<[obj := ObjCell {| metaName := metaName meta;
                                        metaNamespace := namespace;
                                        Labels := Labels meta;
                                        Annotations := Annotations meta |}
                                     content]> (heap w)) w)
  | _ => (tt, w)
  end.

(** [m[key] = value] on the Go map [m]. *)
Definition mapStore (m : loc) (key value : string) (w : World W) : World W :=
  match heap w !! m with
  | Some (MapCell entries) =>
      setHeap (<[m := MapCell (<[key := value]> entries)]> (heap w)) w
  | _ => w
  end.

(** [for key, value := range overrides { m[key] = value }]. *)
Definition rangeStore (overrides : gmap string string) (m : loc)
  : Ext W unit := λ w,
  (tt, map_fold (λ key value w, mapStore m key value w) w overrides).

(** The copy of a map that [DeepCopyInto] makes: nil stays nil. *)
Definition copyMap (r : option loc) : Ext W (option loc) := λ w,
  match r with
  | None => (None, w)
  | Some r =>
      match heap w !! r with
      | Some (MapCell m) => let '(l, w') := new (MapCell m) w in (Some l, w')
      | _ => (None, w)
      end
  end.

(** [obj.DeepCopyObject()]: a new object with new maps. *)
Definition DeepCopyObject (obj : loc) : Ext W loc := λ w,
  match heap w !! obj with
  | Some (ObjCell meta content) =>
      (labels <~ copyMap (Labels meta) ;;
       annotations <~ copyMap (Annotations meta) ;;
       new (ObjCell {| metaName := metaName meta;
                       metaNamespace := metaNamespace meta;
                       Labels := labels;
                       Annotations := annotations |} content)) w
  | _ => (obj, w)
  end.

Definition newMap (m : option (gmap string string)) : Ext W (option loc) :=
  match m with
  | None => eret None
  | Some m => l <~ new (MapCell m) ;; eret (Some l)
  end.

(** The object a deserializer hands back: newly allocated. *)
Definition newObject (v : ObjValue) : Ext W loc :=
  labels <~ newMap (vLabels (vMeta v)) ;;
  annotations <~ newMap (vAnnotations (vMeta v)) ;;
  new (ObjCell {| metaName := vName (vMeta v);
                  metaNamespace := vNamespace (vMeta v);
                  Labels := labels;
                  Annotations := annotations |} (vContent v)).

(** Unmarshalling into a map field: a nil map is allocated, a map that
    is there is reused, a null document value leaves nil. *)
Definition storeMap (r : option loc) (m : option (gmap string string))
  : Ext W (option loc) :=
  match m, r with
  | None, _ => eret None
  | Some m, Some r =>
      λ w, (Some r, setHeap (<[r := MapCell m]> (heap w)) w)
  | Some m, None => l <~ new (MapCell m) ;; eret (Some l)
  end.

(** Unmarshalling into the object at [obj]. *)
Definition storeValue (obj : loc) (v : ObjValue) : Ext W unit := λ w,
  match heap w !! obj with
  | Some (ObjCell meta _) =>
      (labels <~ storeMap (Labels meta) (vLabels (vMeta v)) ;;
       annotations <~ storeMap (Annotations meta) (vAnnotations (vMeta v)) ;;
       λ w, (tt, setHeap (<[obj := ObjCell
                                {| metaName := vName (vMeta v);
                                   metaNamespace := vNamespace (vMeta v);
                                   Labels := labels;
                                   Annotations := annotations |}
                                (vContent v)]> (heap w)) w)) w
  | _ => (tt, w)
  end.

(** [decoder.Decode(obj)] of a [YAMLOrJSONDecoder] on the document
    [b]: the object is overwritten when the document decodes. *)
Definition decoderDecode `{!Codec} (b : string) (obj : loc)
  : Ext W (option error) := λ w,
  match obj_value (heap w) obj with
  | Some v =>
      match decodeInto b v with
      | inl err => (Some err, w)
      | inr v' => let '(_, w') := storeValue obj v' w in (None, w')
      end
  | None => (Some (ErrOther "decode into an invalid object"), w)
  end.
End Heap.

(** ** The package *)

Inductive CreateOption : Type := CreateOpt (name : string).
Inductive UpdateOption : Type := UpdateOpt (name : string).
Inductive DeleteOption : Type := DeleteOpt (name : string).

Section Package.
Context {W Ctx : Type}.

(** [type MutateFunc func(obj k8s.Object) error] *)
Definition MutateFunc : Type := loc → Ext W (option error).

(** [type HandlerFunc func(ctx context.Context, obj k8s.Object) error] *)
Definition HandlerFunc : Type := Ctx → option loc → Ext W (option error).

(** The resource client [*Resources], as far as the handlers use it. *)
Record Resources := {
  Create : Ctx → option loc → list CreateOption → Ext W (option error);
  Update : Ctx → option loc → list UpdateOption → Ext W (option error);
  Delete : Ctx → option loc → list DeleteOption → Ext W (option error);
}.

(** *** Patches *)

Definition MutateLabels (overrides : gmap string string) : MutateFunc :=
  λ obj,
    labels <~ GetLabels obj ;;
    labels <~ match labels with
              | None =>
                  labels <~ new (MapCell ∅) ;;
                  SetLabels obj (Some labels) ;;;
                  eret labels
              | Some labels => eret labels
              end ;;
    rangeStore overrides labels ;;;
    eret None.

Definition MutateAnnotations (overrides : gmap string string) : MutateFunc :=
  λ obj,
    annotations <~ GetAnnotations obj ;;
    annotations <~ match annotations with
                   | None =>
                       annotations <~ new (MapCell ∅) ;;
                       SetLabels obj (Some annotations) ;;;
                       eret annotations
                   | Some annotations => eret annotations
                   end ;;
    rangeStore overrides annotations ;;;
    eret None.

Definition MutateNamespace (namespace : string) : MutateFunc :=
  λ obj, SetNamespace obj namespace ;;; eret None.

(** [for _, patch := range patches { patch(obj) }]: what a patch
    returns is dropped. *)
Fixpoint rangePatches (patches : list MutateFunc) (obj : loc) : Ext W unit :=
  match patches with
  | [] => eret tt
  | patch :: patches => patch obj ;;; rangePatches patches obj
  end.

(** *** Handlers *)

Definition CreateHandler (r : Resources) (opts : list CreateOption)
  : HandlerFunc :=
  λ ctx obj, Create r ctx obj opts.

Definition UpdateHandler (r : Resources) (opts : list UpdateOption)
  : HandlerFunc :=
  λ ctx obj, Update r ctx obj opts.

Definition DeleteHandler (r : Resources) (opts : list DeleteOption)
  : HandlerFunc :=
  λ ctx obj, Delete r ctx obj opts.

Definition IgnoreErrorHandler (handler : HandlerFunc)
    (errorMatcher : error → bool) : HandlerFunc :=
  λ ctx obj,
    err <~ handler ctx obj ;;
    match err with
    | Some e => if negb (errorMatcher e) then eret (Some e) else eret None
    | None => eret None
    end.

Definition NoopHandler (r : Resources) (opts : list DeleteOption)
  : HandlerFunc :=
  λ ctx obj, eret None.

Definition CreateIgnoreAlreadyExists (r : Resources)
    (opts : list CreateOption) : HandlerFunc :=
  λ ctx obj,
    IgnoreErrorHandler (CreateHandler r opts) IsAlreadyExists ctx obj.

Definition DeleteIgnoreNotFound (r : Resources)
    (opts : list CreateOption) : HandlerFunc :=
  λ ctx obj,
    IgnoreErrorHandler (CreateHandler r opts) IsNotFound ctx obj.

(** The call [handlerFn(ctx, obj)] made by a decoder: the handler runs
    on the world and the invocation is logged. *)
Definition invoke (handlerFn : HandlerFunc) (ctx : Ctx) (obj : option loc)
  : M W (option error) :=
  err <- lift (handlerFn ctx obj) ;;
  emit (EvHandler obj err) ;;
  ret err.

(** *** Decoders *)

Context `{!Codec} `{!PathLib}.

(** [manifest] is what [io.ReadAll] gives for the reader. *)
Definition DecodeAny (manifest : error + string)
    (defaults : option GroupVersionKind) (patches : list MutateFunc)
  : M W (option loc * option error) :=
  match manifest with
  | inl err => ret (None, Some err)
  | inr b =>
      let '(runtimeObj, err) := k8sDecoder b defaults in
      let assert (runtimeObj : option RuntimeObject)
        : M W (option loc * option error) :=
        match runtimeObj with
        | Some (K8sObject v) =>
            obj <- lift (newObject v) ;;
            lift (rangePatches patches obj) ;;
            ret (Some obj, None)
        | _ => ret (None, err)
        end in
      if IsNotRegisteredError err then
        match yamlUnmarshal b with
        | inl err => ret (None, Some err)
        | inr Object => assert (Some (K8sObject (unstructuredValue Object)))
        end
      else if err is Some e then ret (None, Some e)
      else assert runtimeObj
  end.

Fixpoint DecodeEach (ctx : Ctx) (manifest : Stream)
    (defaults : option GroupVersionKind) (handlerFn : HandlerFunc)
    (patches : list MutateFunc) : M W (option error) :=
  match manifest with
  | [] => ret None
  | ReadError err :: _ => ret (Some err)
  | Doc b :: manifest =>
      r <- DecodeAny (inr b) defaults patches ;;
      let '(obj, err) := r in
      if err is Some e then ret (Some e) else
      invoke handlerFn ctx obj ;;
      DecodeEach ctx manifest defaults handlerFn patches
  end.

(** The loop of [DecodeAll], with the slice [objects] built so far. *)
Fixpoint DecodeAll_loop (manifest : Stream)
    (defaults : option GroupVersionKind) (patches : list MutateFunc)
    (objects : list (option loc))
  : M W (list (option loc) * option error) :=
  match manifest with
  | [] => ret (objects, None)
  | ReadError err :: _ => ret ([], Some err)
  | Doc b :: manifest =>
      r <- DecodeAny (inr b) defaults patches ;;
      let '(obj, err) := r in
      if err is Some e then ret ([], Some e) else
      DecodeAll_loop manifest defaults patches (objects ++ [obj])
  end.

Definition DecodeAll (manifest : Stream)
    (defaults : option GroupVersionKind) (patches : list MutateFunc)
  : M W (list (option loc) * option error) :=
  DecodeAll_loop manifest defaults patches [].

(** [for _, obj := range o { handlerFn(ctx, obj) }] *)
Fixpoint rangeInvoke (handlerFn : HandlerFunc) (ctx : Ctx)
    (o : list (option loc)) : M W unit :=
  match o with
  | [] => ret tt
  | obj :: o => invoke handlerFn ctx obj ;; rangeInvoke handlerFn ctx o
  end.

Variable fs : FileSystem.

Fixpoint DecodeEachFile_loop (ctx : Ctx) (files : list string)
    (defaults : option GroupVersionKind) (handlerFn : HandlerFunc)
    (patches : list MutateFunc) : M W (option error) :=
  match files with
  | [] => ret None
  | file :: files =>
      match Open fs file with
      | inl err => ret (Some err)
      | inr f =>
          r <- DecodeAll f defaults patches ;;
          let '(o, err) := r in
          if err is Some e then ret (Some e) else
          rangeInvoke handlerFn ctx o ;;
          DecodeEachFile_loop ctx files defaults handlerFn patches
      end
  end.

Definition DecodeEachFile (ctx : Ctx) (filepath : string)
    (defaults : option GroupVersionKind) (handlerFn : HandlerFunc)
    (patches : list MutateFunc) : M W (option error) :=
  let '(files, err) := listResourceFiles fs filepath in
  if err is Some e then ret (Some e) else
  DecodeEachFile_loop ctx files defaults handlerFn patches.

Fixpoint DecodeAllFiles_loop (files : list string)
    (defaults : option GroupVersionKind) (patches : list MutateFunc)
    (objects : list (option loc))
  : M W (list (option loc) * option error) :=
  match files with
  | [] => ret (objects, None)
  | file :: files =>
      match Open fs file with
      | inl err => ret ([], Some err)
      | inr f =>
          r <- DecodeAll f defaults patches ;;
          let '(o, err) := r in
          if err is Some e then ret ([], Some e) else
          DecodeAllFiles_loop files defaults patches (objects ++ o)
      end
  end.

Definition DecodeAllFiles (filepath : string)
    (defaults : option GroupVersionKind) (patches : list MutateFunc)
  : M W (list (option loc) * option error) :=
  let '(files, err) := listResourceFiles fs filepath in
  if err is Some e then ret ([], Some e) else
  DecodeAllFiles_loop files defaults patches [].

(** *** Decoders into a copy of a given object *)

(** [Decode]: the first document of the stream into [obj]. *)
Definition Decode (manifest : Stream) (obj : loc)
    (patches : list MutateFunc) : M W (option error) :=
  match manifest with
  | [] => ret (Some EOF)
  | ReadError err :: _ => ret (Some err)
  | Doc b :: _ =>
      err <- lift (decoderDecode b obj) ;;
      if err is Some e then ret (Some e) else
      lift (rangePatches patches obj) ;;
      ret None
  end.

(** The loop of [DecodeObjects]; [base] is the copy taken on entry. *)
Fixpoint DecodeObjects_loop (manifest : Stream) (base : loc)
    (patches : list MutateFunc) (objects : list loc)
  : M W (list loc * option error) :=
  obj <- lift (DeepCopyObject base) ;;
  match manifest with
  | [] => ret (objects, None)
  | ReadError err :: _ => ret ([], Some err)
  | Doc b :: manifest =>
      err <- lift (decoderDecode b obj) ;;
      if err is Some e then ret ([], Some e) else
      lift (rangePatches patches obj) ;;
      DecodeObjects_loop manifest base patches (objects ++ [obj])
  end.

Definition DecodeObjects (manifest : Stream) (obj : loc)
    (patches : list MutateFunc) : M W (list loc * option error) :=
  base <- lift (DeepCopyObject obj) ;;
  DecodeObjects_loop manifest base patches [].

(** [DecodeDocuments]: [fn] is called on every object; it returns
    nothing. *)
Fixpoint DecodeDocuments (manifest : Stream) (base : loc)
    (fn : loc → Ext W unit) (patches : list MutateFunc)
  : M W (option error) :=
  obj <- lift (DeepCopyObject base) ;;
  match manifest with
  | [] => ret None
  | ReadError err :: _ => ret (Some err)
  | Doc b :: manifest =>
      err <- lift (decoderDecode b obj) ;;
      if err is Some e then ret (Some e) else
      lift (rangePatches patches obj) ;;
      lift (fn obj) ;;
      emit (EvHandler (Some obj) None) ;;
      DecodeDocuments manifest base fn patches
  end.
End Package.

Arguments MutateFunc : clear implicits.
Arguments HandlerFunc : clear implicits.
Arguments Resources : clear implicits.

Global Arguments rangeStore : simpl never.
Global Arguments DecodeAny : simpl never.
Global Arguments invoke : simpl never.
Global Arguments DeepCopyObject : simpl never.
Global Arguments decoderDecode : simpl never.
Global Arguments newObject : simpl never.
Global Arguments listResourceFiles : simpl never.

(** ** The decoders of files into a copy of a given object *)

Section PackageFiles.
Context {W : Type} `{!Codec} `{!PathLib}.
Variable fs : FileSystem.

(** [DecodeFile]: the file is opened and its first document decoded
    into [obj]. *)
Definition DecodeFile (manifestPath : string) (obj : loc)
    (patches : list (MutateFunc W)) : M W (option error) :=
  match Open fs manifestPath with
  | inl err => ret (Some err)
  | inr f => Decode f obj patches
  end.

(** The loop of [DecodeDirectory], with the slice [objects] built so
    far. *)
Fixpoint DecodeDirectory_loop (files : list string) (obj : loc)
    (patches : list (MutateFunc W)) (objects : list loc)
  : M W (list loc * option error) :=
  match files with
  | [] => ret (objects, None)
  | file :: files =>
      match Open fs file with
      | inl err => ret ([], Some err)
      | inr f =>
          r <- DecodeObjects f obj patches ;;
          let '(o, err) := r in
          if err is Some e then ret ([], Some e) else
          DecodeDirectory_loop files obj patches (objects ++ o)
      end
  end.

Definition DecodeDirectory (directory : string) (obj : loc)
    (patches : list (MutateFunc W)) : M W (list loc * option error) :=
  let '(files, err) := listResourceFiles fs directory in
  if err is Some e then ret ([], Some e) else
  DecodeDirectory_loop files obj patches [].
End PackageFiles.

Global Arguments DecodeObjects : simpl never.
Global Arguments Decode : simpl never.

(** ** Notions the properties are stated with *)

(** The error [DecodeAny] returns for the document [b]: it depends on
    the document and the registry alone, not on the store. *)
Definition decodeError `{!Codec} (b : string)
    (defaults : option GroupVersionKind) : option error :=
  let '(_, err) := k8sDecoder b defaults in
  if IsNotRegisteredError err then
    match yamlUnmarshal b with
    | inl e => Some e
    | inr _ => None
    end
  else err.

(** Running [f] on the elements of a list, first to last. *)
Fixpoint mapM {W A B} (f : A → M W B) (l : list A) : M W (list B) :=
  match l with
  | [] => ret []
  | a :: l => b <- f a ;; bs <- mapM f l ;; ret (b :: bs)
  end.

(** The [Object] map of a generic object. *)
Definition dotObject (v : ObjValue) : option (gmap string JSON) :=
  match vContent v with
  | Unstructured Object => Some Object
  | Typed _ _ => None
  end.

(** The object a logged invocation was made on. *)
Definition evObj (ev : Event) : option loc :=
  match ev with EvHandler obj _ => obj end.

(** The error a chunk of a stream stops [DecodeAll] and [DecodeEach]
    with, if any: a read error, or a document that does not decode. *)
Definition chunkError `{!Codec} (defaults : option GroupVersionKind)
    (chunk : Chunk) : option error :=
  match chunk with
  | Doc b => decodeError b defaults
  | ReadError e => Some e
  end.

(** Decoding the documents of each file in turn, and handing the
    objects of a file to the handler once the file is decoded; the
    result is the list of the objects, in the order they were decoded. *)
Fixpoint eachFile {W Ctx} `{!Codec} (ctx : Ctx) (files : list (list string))
    (defaults : option GroupVersionKind) (handlerFn : HandlerFunc W Ctx)
    (patches : list (MutateFunc W)) : M W (list (option loc)) :=
  match files with
  | [] => ret []
  | docs :: files =>
      rs <- mapM (λ b, DecodeAny (inr b) defaults patches) docs ;;
      rangeInvoke handlerFn ctx rs.*1 ;;
      objects <- eachFile ctx files defaults handlerFn patches ;;
      ret (rs.*1 ++ objects)
  end.

(** The documents of the files: every file opens and splits into
    documents without a read error. *)
Definition holds (fs : FileSystem) (files : list string)
    (docss : list (list string)) : Prop :=
  Forall2 (λ file docs, Open fs file = inr (Doc <$> docs)) files docss.

(** The cells an object is made of: the object and its label and
    annotation maps. *)
Definition optLoc (r : option loc) : gset loc :=
  match r with Some l => {[l]} | None => ∅ end.

Definition footprint (h : gmap loc Cell) (obj : loc) : gset loc :=
  match h !! obj with
  | Some (ObjCell meta _) =>
      {[obj]} ∪ optLoc (Labels meta) ∪ optLoc (Annotations meta)
  | _ => {[obj]}
  end.

(** The label map and the annotation map of the object are two maps. *)
Definition separated (h : gmap loc Cell) (obj : loc) : Prop :=
  ∀ meta c l, h !! obj = Some (ObjCell meta c) →
              Labels meta = Some l → Annotations meta ≠ Some l.

(** [w'] comes from [w] by work on the object [obj] alone: the cells of
    [w] that are not cells of [obj] keep their content, no cell
    disappears, the cells of [obj] afterwards are cells it had or new
    cells, and [obj] stays an object. *)
Definition modifies {W} (obj : loc) (w w' : World W) : Prop :=
  (∀ l, l ∈ dom (heap w) → l ∉ footprint (heap w) obj →
        heap w' !! l = heap w !! l)
  ∧ dom (heap w) ⊆ dom (heap w')
  ∧ footprint (heap w') obj
    ⊆ footprint (heap w) obj ∪ (dom (heap w') ∖ dom (heap w))
  ∧ (is_Some (obj_value (heap w) obj) → is_Some (obj_value (heap w') obj)).

(** A patch or callback that reaches the heap through the object it is
    given only: Go code that holds no other reference. *)
Definition confined {W A} (f : loc → Ext W A) : Prop :=
  ∀ obj w, modifies obj w (f obj w).2.

(** The objects of [objects] are distinct objects of [h] made of cells
    that [h0] did not have, no two of them share a cell, and every cell
    of [h0] is in [h] with the content it had. *)
Definition isolated (h0 h : gmap loc Cell) (objects : list loc) : Prop :=
  h0 ⊆ h
  ∧ NoDup objects
  ∧ (∀ o, o ∈ objects →
          is_Some (obj_value h o) ∧ footprint h o ⊆ dom h ∖ dom h0)
  ∧ (∀ o o', o ∈ objects → o' ∈ objects → o ≠ o' →
             footprint h o ## footprint h o').

(** The object [o] of [h] holds what the document [chunk] decodes to
    when it is decoded into a copy of the value [v0]. *)
Definition decodedFrom `{!Codec} (v0 : ObjValue) (h : gmap loc Cell)
    (o : loc) (chunk : Chunk) : Prop :=
  ∃ b v, chunk = Doc b ∧ decodeInto b v0 = inr v ∧ obj_value h o = Some v.

(** The log entries of [DecodeDocuments] for the objects given to [fn]. *)
Definition fnCalls (objects : list loc) : list Event :=
  (λ o, EvHandler (Some o) None) <$> objects.

(** The document [b] deserialises to a [k8s.Object]: a registered kind
    that is one, or a kind that is not registered (the generic
    object). *)
Definition yieldsObject `{!Codec} (b : string)
    (defaults : option GroupVersionKind) : Prop :=
  IsNotRegisteredError (k8sDecoder b defaults).2 = true
  ∨ ∃ v, (k8sDecoder b defaults).1 = Some (K8sObject v).

(** The value of an object once its namespace has been set, and once
    the labels [overrides] have been stored in its label map (made when
    the object had none). *)
Definition withNamespace (namespace : string) (v : ObjValue) : ObjValue :=
  {| vMeta := {| vName := vName (vMeta v);
                 vNamespace := namespace;
                 vLabels := vLabels (vMeta v);
                 vAnnotations := vAnnotations (vMeta v) |};
     vContent := vContent v |}.

Definition withLabels (overrides : gmap string string) (v : ObjValue)
  : ObjValue :=
  {| vMeta := {| vName := vName (vMeta v);
                 vNamespace := vNamespace (vMeta v);
                 vLabels := Some (overrides ∪ default ∅ (vLabels (vMeta v)));
                 vAnnotations := vAnnotations (vMeta v) |};
     vContent := vContent v |}.

(** A typed object: its metadata is a [metav1.ObjectMeta], whose
    getters hand out the maps of the object themselves. *)
Definition isTyped (v : ObjValue) : Prop :=
  ∃ gvk fields, vContent v = Typed gvk fields.

(** The error of the first chunk of a stream that fails, and of the
    first file of a list that does not open or holds such a chunk. *)
Fixpoint streamError `{!Codec} (defaults : option GroupVersionKind)
    (manifest : Stream) : option error :=
  match manifest with
  | [] => None
  | chunk :: manifest =>
      match chunkError defaults chunk with
      | Some e => Some e
      | None => streamError defaults manifest
      end
  end.

Fixpoint filesError `{!Codec} (fs : FileSystem)
    (defaults : option GroupVersionKind) (files : list string)
  : option error :=
  match files with
  | [] => None
  | file :: files =>
      match Open fs file with
      | inl e => Some e
      | inr f =>
          match streamError defaults f with
          | Some e => Some e
          | None => filesError fs defaults files
          end
      end
  end.

(** The error that decoding a chunk into a copy of the value [v0]
    stops [DecodeObjects] with, if any: a read error, or a document
    that does not decode into such a copy. *)
Definition intoError `{!Codec} (v0 : ObjValue) (chunk : Chunk)
  : option error :=
  match chunk with
  | Doc b => match decodeInto b v0 with
             | inl e => Some e
             | inr _ => None
             end
  | ReadError e => Some e
  end.

(** What the handler does when it is called on the objects of a list
    one after the other, each call on the world the previous one left:
    the record of the calls, and the world after the last. *)
Fixpoint dispatch {W Ctx} (handlerFn : HandlerFunc W Ctx) (ctx : Ctx)
    (objects : list (option loc)) (w : World W) : list Event * World W :=
  match objects with
  | [] => ([], w)
  | obj :: objects =>
      let '(err, w1) := handlerFn ctx obj w in
      let '(evs, w2) := dispatch handlerFn ctx objects w1 in
      (EvHandler obj err :: evs, w2)
  end.

(** File after file: the documents of the file are decoded in their
    order, then the handler is called on the objects in that order; the
    next file starts from the store this leaves. *)
Fixpoint handleFiles {W Ctx} `{!Codec} (ctx : Ctx)
    (files : list (list string)) (defaults : option GroupVersionKind)
    (handlerFn : HandlerFunc W Ctx) (patches : list (MutateFunc W))
    (s : Store W) : Store W :=
  match files with
  | [] => s
  | docs :: files =>
      let '(rs, s1) :=
        mapM (λ b, DecodeAny (inr b) defaults patches) docs s in
      let '(evs, w2) := dispatch handlerFn ctx rs.*1 (world s1) in
      handleFiles ctx files defaults handlerFn patches
                  (mkStore w2 (calls s1 ++ evs))
  end.

(** ** Test data

    A small instance of the collaborators, after the [testdata]
    directory of the package's tests: a path library for clean relative
    paths, a directory with one file per recognised extension, and a
    deserializer that knows one kind. *)

Module Testdata.

(** The split of a path at its last separator. *)
Fixpoint lastSlash (path : string) : option (string * string) :=
  match path with
  | EmptyString => None
  | String c rest =>
      match lastSlash rest with
      | Some (dir, base) => Some (String c dir, base)
      | None => if Ascii.eqb c "/" then Some (EmptyString, rest) else None
      end
  end.

Definition base (path : string) : string :=
  match lastSlash path with Some (_, b) => b | None => path end.

Definition dir (path : string) : string :=
  match lastSlash path with Some (d, _) => d | None => "." end.

Definition join (dir name : string) : string := dir +:+ "/" +:+ name.

#[export] Instance paths : PathLib :=
  {| Base := base; Dir := dir; Join := join |}.

Definition multidoc : Stream := [Doc "b1"; Doc "b2"].

(** [testdata] holds [a.yaml] (one document), [b.yml] (two
    documents), [c.json] (one document) and a file that is no
    manifest; the file system enumerates them in no particular
    order. *)
Definition fs : FileSystem :=
  {| Stat := λ path,
       if String.eqb path "testdata"
       then inr {| IsDir := true; Name := "testdata" |}
       else if bool_decide (path ∈ ["testdata/a.yaml"; "testdata/b.yml";
                                    "testdata/c.json"; "testdata/notes.txt"])
       then inr {| IsDir := false; Name := base path |}
       else inl (ErrNotFound path);
     Readdirnames := λ path,
       if String.eqb path "testdata"
       then ["c.json"; "notes.txt"; "b.yml"; "a.yaml"]
       else [];
     Open := λ path,
       if String.eqb path "testdata/a.yaml" then inr [Doc "a"]
       else if String.eqb path "testdata/b.yml" then inr multidoc
       else if String.eqb path "testdata/c.json" then inr [Doc "c"]
       else inl (ErrNotFound path);
     GlobMagic := λ _ _ _, ([], None) |}.

(** The same directory, enumerated in another order. *)
Definition fs' : FileSystem :=
  {| Stat := Stat fs;
     Readdirnames := λ path,
       if String.eqb path "testdata"
       then ["b.yml"; "a.yaml"; "notes.txt"; "c.json"]
       else [];
     Open := Open fs;
     GlobMagic := GlobMagic fs |}.

Definition configMap : GroupVersionKind :=
  {| Group := ""; Version := "v1"; Kind := "ConfigMap" |}.

Definition configMapList : GroupVersionKind :=
  {| Group := ""; Version := "v1"; Kind := "ConfigMapList" |}.

Definition named (name : string) (labels : option (gmap string string))
  : ObjValue :=
  {| vMeta := {| vName := name; vNamespace := "";
                 vLabels := labels; vAnnotations := None |};
     vContent := Typed configMap ∅ |}.

(** The [Object] map of the custom resource of [fake-crd.yaml]. *)
Definition crd : gmap string JSON :=
  {[ "kind" := JString "Example";
     "spec" := JObject [("example", JString "value")] ]}.

(** A document is named by its bytes: ["bad"] does not parse, ["crd"]
    is of a kind that is not registered, ["list"] is a list (no
    [k8s.Object]), anything else is a config map of that name. *)
#[export] Instance codec : Codec :=
  {| k8sDecoder := λ b _,
       if String.eqb b "bad" then (None, Some (ErrOther "yaml: bad document"))
       else if String.eqb b "crd" then (None, Some (ErrNotRegistered "Example"))
       else if String.eqb b "list"
       then (Some (OtherObject configMapList ∅), None)
       else (Some (K8sObject (named b None)), None);
     yamlUnmarshal := λ b,
       if String.eqb b "crd" then inr crd
       else inl (ErrOther "yaml: bad document");
     unstructuredMeta := λ _,
       {| vName := "example"; vNamespace := "";
          vLabels := None; vAnnotations := None |};
     decodeInto := λ b v,
       if String.eqb b "bad" then inl (ErrOther "yaml: bad document")
       else inr {| vMeta := {| vName := b;
                               vNamespace := vNamespace (vMeta v);
                               vLabels := vLabels (vMeta v);
                               vAnnotations := vAnnotations (vMeta v) |};
                   vContent := vContent v |} |}.

Definition boom : error := ErrOther "boom".

(** A handler and a patch that fail on every object. *)
Definition failingHandler : HandlerFunc unit unit :=
  λ _ _, eret (Some boom).

Definition failingPatch : MutateFunc unit := λ _, eret (Some boom).

Definition emptyWorld : World unit := mkWorld ∅ tt.
Definition emptyStore : Store unit := mkStore emptyWorld [].

(** The names of the objects of a list, read in a store. *)
Definition names {W} (s : Store W) (objects : list (option loc))
  : list (option string) :=
  (λ obj, o ← obj; v ← obj_value (heap (world s)) o; Some (vName (vMeta v)))
    <$> objects.

Definition labelsOf {W} (w : World W) (obj : loc)
  : option (option (gmap string string)) :=
  v ← obj_value (heap w) obj; Some (vLabels (vMeta v)).

Definition annotationsOf {W} (w : World W) (obj : loc)
  : option (option (gmap string string)) :=
  v ← obj_value (heap w) obj; Some (vAnnotations (vMeta v)).

(** The same, with the entries of the map listed. *)
Definition labelList {W} (w : World W) (obj : loc)
  : option (option (list (string * string))) :=
  v ← obj_value (heap w) obj;
  Some (map_to_list <$> vLabels (vMeta v)).

Definition annotationList {W} (w : World W) (obj : loc)
  : option (option (list (string * string))) :=
  v ← obj_value (heap w) obj;
  Some (map_to_list <$> vAnnotations (vMeta v)).

(** A config map with one label and no annotations, in a heap of its
    own. *)
Definition web : ObjValue := named "web" (Some {[ "app" := "web" ]}).
Definition webObj : loc := (newObject web emptyWorld).1.
Definition webWorld : World unit := (newObject web emptyWorld).2.
Definition webStore : Store unit := mkStore webWorld [].

Definition injected : gmap string string :=
  {[ "injected" := "labelvalue" ]}.

(** A callback that does nothing. *)
Definition ignore : loc → Ext unit unit := λ _, eret tt.

(** A client that records its calls in the world. *)
Definition recorder : Resources (list string) unit :=
  {| Create := λ _ _ _ w,
       (Some (ErrNotFound "x"), mkWorld (heap w) (ext w ++ ["create"]));
     Update := λ _ _ _ w,
       (None, mkWorld (heap w) (ext w ++ ["update"]));
     Delete := λ _ _ _ w,
       (Some (ErrNotFound "x"), mkWorld (heap w) (ext w ++ ["delete"])) |}.
End Testdata.

(** A directory whose second file holds a document that does not
    parse, between two that do. *)
Module Brokendata.

Definition brokenfs : FileSystem :=
  {| Stat := λ path,
       if String.eqb path "broken"
       then inr {| IsDir := true; Name := "broken" |}
       else inl (ErrNotFound path);
     Readdirnames := λ path,
       if String.eqb path "broken"
       then ["b.yaml"; "c.yaml"; "a.yaml"]
       else [];
     Open := λ path,
       if String.eqb path "broken/a.yaml" then inr [Doc "a1"; Doc "a2"]
       else if String.eqb path "broken/b.yaml"
       then inr [Doc "b1"; Doc "bad"; Doc "b3"]
       else if String.eqb path "broken/c.yaml" then inr [Doc "c"]
       else inl (ErrNotFound path);
     GlobMagic := λ _ _ _, ([], None) |}.
End Brokendata.

(** A directory whose files, taken extension by extension, are not in
    the order of their names. *)
Module Orderdata.

Definition mixed : FileSystem :=
  {| Stat := λ path,
       if String.eqb path "mixed"
       then inr {| IsDir := true; Name := "mixed" |}
       else inl (ErrNotFound path);
     Readdirnames := λ path,
       if String.eqb path "mixed"
       then ["c.yml"; "b.yaml"; "a.json"]
       else [];
     Open := λ path,
       if String.eqb path "mixed/a.json" then inr [Doc "a"]
       else if String.eqb path "mixed/b.yaml" then inr [Doc "b1"; Doc "b2"]
       else if String.eqb path "mixed/c.yml" then inr [Doc "c"]
       else inl (ErrNotFound path);
     GlobMagic := λ _ _ _, ([], None) |}.

(** A handler that writes down the name of the object it is given,
    and fails. *)
Definition nameRecorder : HandlerFunc (list (option string)) unit :=
  λ _ obj w,
    (Some (ErrOther "boom"),
     mkWorld (heap w)
             (ext w ++ [o ← obj; v ← obj_value (heap w) o;
                        Some (vName (vMeta v))])).

Definition recordStore : Store (list (option string)) :=
  mkStore (mkWorld ∅ []) [].
End Orderdata.

(** Directories the claim on the resolver does not hold for: [d[1]],
    whose name is a pattern for [filepath.Glob] (it names an entry
    [d1], and there is none, so [Glob] matches nothing), and [kinds],
    which holds a sub-directory named [sub.yaml]. *)
Module Patterndata.

End Patterndata.

(** * Properties *)

(** ** The file resolver *)

Lemma list_ascii_of_string_app (s1 s2 : string) :
  list_ascii_of_string (s1 +:+ s2)
  = list_ascii_of_string s1 ++ list_ascii_of_string s2.
Proof. induction s1 as [|c s1 IH]; simpl; [done|]. by rewrite IH. Qed.

Lemma string_of_list_ascii_app (l1 l2 : list ascii) :
  string_of_list_ascii (l1 ++ l2)
  = string_of_list_ascii l1 +:+ string_of_list_ascii l2.
Proof. induction l1 as [|c l1 IH]; simpl; [done|]. by rewrite IH. Qed.

Lemma matchStar_spec (base ext name : string) :
  matchStar base ext name = true ↔ ∃ mid, name = base +:+ mid +:+ ext.
Proof.
  unfold matchStar. rewrite andb_true_iff, !bool_decide_eq_true. split.
  - intros [[k Hk] [m Hm]]. rewrite Hk, drop_app_length in Hm. subst k.
    exists (string_of_list_ascii m).
    rewrite <- (string_of_list_ascii_of_string name), Hk.
    rewrite !string_of_list_ascii_app, !string_of_list_ascii_of_string.
    done.
  - intros [mid ->]. rewrite !list_ascii_of_string_app. split.
    + by eexists.
    + rewrite drop_app_length. by eexists.
Qed.





Lemma sortStrings_Permutation (l : list string) : sortStrings l ≡ₚ l.
Proof. apply merge_sort_Permutation. Qed.

Lemma sortStrings_Sorted (l : list string) : Sorted String.le (sortStrings l).
Proof. apply (Sorted_merge_sort String.le). Qed.

Lemma sortStrings_elem_of (l : list string) (x : string) :
  x ∈ sortStrings l ↔ x ∈ l.
Proof. by rewrite sortStrings_Permutation. Qed.


(** Sorting does not depend on the order of what it is given. *)
Lemma sortStrings_perm (l1 l2 : list string) :
  l1 ≡ₚ l2 → sortStrings l1 = sortStrings l2.
Proof.
  intros Hp. apply (Sorted_unique String.le).
  - apply sortStrings_Sorted.
  - apply sortStrings_Sorted.
  - by rewrite !sortStrings_Permutation.
Qed.

Lemma filter_sortStrings (P : string → Prop) `{!∀ x, Decision (P x)}
    (l : list string) :
  filter P (sortStrings l) ≡ₚ filter P l.
Proof. by rewrite sortStrings_Permutation. Qed.

Section ResolverFacts.
Context `{!PathLib}.

Lemma resolvesTo_isDir fs path dir base :
  resolvesTo fs path dir base →
  ∃ fi, Stat fs dir = inr fi ∧ IsDir fi = true.
Proof.
  intros [fi Hs Hd|e Hs Hd]; [eauto|].
  unfold isDirectory in Hd. destruct (Stat fs (Dir path)); [done|eauto].
Qed.

Lemma glob_dir fs dir base ext fi :
  Stat fs dir = inr fi → IsDir fi = true →
  glob fs dir base ext
  = Join dir <$> filter (λ n, matchStar base ext n = true)
                        (sortStrings (Readdirnames fs dir)).
Proof. intros Hs Hd. unfold glob. by rewrite Hs, Hd. Qed.

Lemma elem_of_glob fs dir base ext fi p :
  Stat fs dir = inr fi → IsDir fi = true →
  p ∈ glob fs dir base ext ↔
  ∃ n, n ∈ Readdirnames fs dir ∧ matchStar base ext n = true ∧ p = Join dir n.
Proof.
  intros Hs Hd. rewrite (glob_dir _ _ _ _ _ Hs Hd), list_elem_of_fmap.
  split.
  - intros (n & -> & [Hm Hn]%list_elem_of_filter).
    rewrite sortStrings_elem_of in Hn. exists n. auto.
  - intros (n & Hn & Hm & ->). exists n. split; [done|].
    apply list_elem_of_filter. by rewrite sortStrings_elem_of.
Qed.


Lemma glob_perm fs fs' dir base ext :
  Stat fs' dir = Stat fs dir →
  Readdirnames fs' dir ≡ₚ Readdirnames fs dir →
  glob fs' dir base ext = glob fs dir base ext.
Proof.
  intros Hs Hp. unfold glob. rewrite Hs.
  by rewrite (sortStrings_perm _ _ Hp).
Qed.

(** What [listResourceFiles] computes once the path has been split
    into a directory and a literal prefix. *)
Lemma listResourceFiles_resolved fs path dir base :
  resolvesTo fs path dir base →
  hasMeta dir = false → hasMeta base = false →
  listResourceFiles fs path
  = (sortStrings (glob fs dir base ".yaml" ++
                  (glob fs dir base ".yml" ++ glob fs dir base ".json")),
     None).
Proof.
  intros Hr Hm1 Hm2. unfold listResourceFiles, Glob.
  destruct Hr as [fi Hs Hd|e Hs Hd].
  - rewrite Hs, Hd, Hm1. done.
  - rewrite Hs, Hd, Hm1, Hm2. done.
Qed.
End ResolverFacts.

Section ResolverTheorem.
Context `{!PathLib}.



End ResolverTheorem.

(** ** The store *)

Section StoreFacts.
Context {W : Type}.
Implicit Types (w : World W) (s : Store W) (h : gmap loc Cell).

Lemma fresh_lookup h : h !! fresh (dom h) = None.
Proof. apply not_elem_of_dom, is_fresh. Qed.

Lemma new_spec (c : Cell) w :
  new c w = (fresh (dom (heap w)),
             mkWorld (<[fresh (dom (heap w)) := c]> (heap w)) (ext w)).
Proof. done. Qed.

Lemma readMap_insert_fresh h l c r :
  h !! l = None → is_Some (readMap h r) →
  readMap (<[l := c]> h) r = readMap h r.
Proof.
  intros Hl [x Hx]. destruct r as [r|]; [|done]. simpl in *.
  destruct (decide (l = r)) as [->|Hne].
  - by rewrite Hl in Hx.
  - by rewrite lookup_insert_ne.
Qed.

Lemma readMap_insert_eq h l m : readMap (<[l := MapCell m]> h) (Some l) = Some (Some m).
Proof. simpl. by rewrite lookup_insert_eq. Qed.

Lemma newMap_spec (m : option (gmap string string)) w :
  ∃ r h', newMap m w = (r, mkWorld h' (ext w))
          ∧ readMap h' r = Some m
          ∧ heap w ⊆ h'
          ∧ (∀ l, l ∈ dom h' → l ∈ dom (heap w) ∨ Some l = r).
Proof.
  destruct m as [m|]; simpl.
  - eexists _, _. split; [reflexivity|]. split; [apply readMap_insert_eq|].
    split; [apply insert_subseteq, fresh_lookup|].
    intros l. rewrite dom_insert, elem_of_union, elem_of_singleton.
    intros [->|?]; auto.
  - exists None, (heap w). destruct w. repeat split; auto.
Qed.

(** The object a deserializer hands back has the value that was
    deserialized, and no cell that was there before has changed. *)
Lemma newObject_spec (v : ObjValue) w :
  ∃ obj w', newObject v w = (obj, w')
            ∧ obj_value (heap w') obj = Some v
            ∧ heap w ⊆ heap w'
            ∧ heap w !! obj = None
            ∧ ext w' = ext w.
Proof.
  unfold newObject, ebind.
  destruct (newMap_spec (vLabels (vMeta v)) w) as (r1 & h1 & -> & Hr1 & Hs1 & _).
  destruct (newMap_spec (vAnnotations (vMeta v)) (mkWorld h1 (ext w)))
    as (r2 & h2 & -> & Hr2 & Hs2 & _). simpl in *.
  eexists _, _. split; [reflexivity|]. simpl.
  split; [|split; [|split; [|done]]].
  - unfold obj_value. rewrite lookup_insert_eq. simpl.
    rewrite !readMap_insert_fresh, Hr2; try apply fresh_lookup; eauto.
    + assert (readMap h2 r1 = Some (vLabels (vMeta v))) as ->.
      { destruct r1 as [r1|]; [|done]. simpl in *.
        destruct (h1 !! r1) as [c|] eqn:E; [|done].
        by rewrite (lookup_weaken _ _ _ _ E Hs2). }
      by destruct v as [[]].
    + destruct r1 as [r1|]; [|by eexists]. simpl in *.
      destruct (h1 !! r1) as [c|] eqn:E; [|done].
      rewrite (lookup_weaken _ _ _ _ E Hs2). by destruct c; eauto.
  - etrans; [exact Hs1|]. etrans; [exact Hs2|].
    apply insert_subseteq, fresh_lookup.
  - apply (lookup_weaken_None _ h2); [apply fresh_lookup|].
    by etrans.
Qed.
End StoreFacts.

(** ** Single documents: [DecodeAny] *)

Section DecodeAnyFacts.
Context {W : Type} `{!Codec}.
Implicit Types (s : Store W) (patches : list (MutateFunc W)).

Lemma lift_calls {A} (c : Ext W A) s : calls (lift c s).2 = calls s.
Proof. unfold lift. by destruct (c (world s)). Qed.

(** The two outcomes of the type assertion that ends [DecodeAny]. *)
Lemma DecodeAny_shape b defaults patches s :
  ∃ obj s', DecodeAny (inr b) defaults patches s
            = ((obj, decodeError b defaults), s')
            ∧ calls s' = calls s.
Proof.
  unfold DecodeAny, decodeError.
  destruct (k8sDecoder b defaults) as [runtimeObj err].
  destruct (IsNotRegisteredError err) eqn:Hreg.
  - destruct (yamlUnmarshal b) as [e|Object]; [by eexists _, _|].
    unfold bind, lift, ret.
    destruct (newObject _ _) as [obj w1]. simpl.
    destruct (rangePatches _ _ _) as [[] w2]. by eexists _, _.
  - destruct err as [e|]; [by eexists _, _|].
    destruct runtimeObj as [[v|gvk fields]|]; try by eexists _, _.
    unfold bind, lift, ret.
    destruct (newObject _ _) as [obj w1]. simpl.
    destruct (rangePatches _ _ _) as [[] w2]. by eexists _, _.
Qed.

(** The loop over the patches runs every patch, each on the world the
    previous one left, whatever the patches return. *)
Lemma rangePatches_foldl patches (obj : loc) (w : World W) :
  rangePatches patches obj w
  = (tt, foldl (λ w patch, (patch obj w).2) w patches).
Proof.
  revert w. induction patches as [|patch patches IH]; intros w; simpl.
  - done.
  - unfold ebind. destruct (patch obj w) as [err w1]. apply IH.
Qed.

(** A document of a registered type: [DecodeAny] returns the object
    with all the patches applied and a nil error, whether or not a
    patch has returned an error. *)
Lemma DecodeAny_runs_all_patches b defaults (v : ObjValue) patches s :
  k8sDecoder b defaults = (Some (K8sObject v), None) →
  DecodeAny (inr b) defaults patches s
  = (let '(obj, w1) := newObject v (world s) in
     ((Some obj, None),
      mkStore (foldl (λ w patch, (patch obj w).2) w1 patches) (calls s))).
Proof.
  intros Hdec. unfold DecodeAny. rewrite Hdec. simpl.
  unfold bind, lift, ret. destruct (newObject v (world s)) as [obj w1].
  simpl. by rewrite rangePatches_foldl.
Qed.

(** C4. A document the scheme has no type for, and that parses, does
    not make [DecodeAny] fail: whatever the patches, the result is a
    new generic object made of the parsed document and then patched;
    without patches its [Object] map is the parsed document as it is
    (so the ["spec"] field and every other field are the document's).
    The only errors of [DecodeAny] on a document are an error of the
    deserializer other than the unregistered-type one, and a document
    of an unregistered type that does not parse. *)
Theorem DecodeAny_unregistered_fallback (b : string)
    (defaults : option GroupVersionKind) (Object : gmap string JSON) :
  IsNotRegisteredError (k8sDecoder b defaults).2 = true →
  yamlUnmarshal b = inr Object →
  (∀ patches s,
     DecodeAny (inr b) defaults patches s
     = (obj <- lift (newObject (unstructuredValue Object)) ;;
        lift (rangePatches patches obj) ;;
        ret (Some obj, None)) s)
  ∧ (∀ patches s, ∃ obj, (DecodeAny (inr b) defaults patches s).1
                         = (Some obj, None))
  ∧ (∀ s, ∃ obj s' v,
       DecodeAny (inr b) defaults [] s = ((Some obj, None), s')
       ∧ obj_value (heap (world s')) obj = Some v
       ∧ dotObject v = Some Object
       ∧ ∀ field, (dotObject v ≫= (.!! field)) = Object !! field)
  ∧ (∀ b' patches s e,
       (DecodeAny (inr b') defaults patches s).1.2 = Some e →
       let err := (k8sDecoder b' defaults).2 in
       (IsNotRegisteredError err = false ∧ err = Some e)
       ∨ (IsNotRegisteredError err = true ∧ yamlUnmarshal b' = inl e)).
Proof.
  intros Hreg Hparse.
  assert (Heq : ∀ patches s,
     DecodeAny (inr b) defaults patches s
     = (obj <- lift (newObject (unstructuredValue Object)) ;;
        lift (rangePatches patches obj) ;;
        ret (Some obj, None)) s).
  { intros patches s. unfold DecodeAny.
    destruct (k8sDecoder b defaults) as [runtimeObj err]. simpl in Hreg.
    by rewrite Hreg, Hparse. }
  split; [exact Heq|]. split; [|split].
  - intros patches s. rewrite Heq. unfold bind, lift, ret.
    destruct (newObject _ _) as [obj w1]. simpl.
    destruct (rangePatches _ _ _) as [[] w2]. by eexists.
  - intros s. rewrite Heq. unfold bind, lift, ret.
    destruct (newObject_spec (unstructuredValue Object) (world s))
      as (obj & w' & -> & Hv & _). simpl.
    exists obj, (mkStore w' (calls s)), (unstructuredValue Object).
    auto.
  - intros b' patches s e.
    destruct (DecodeAny_shape b' defaults patches s) as (obj & s' & -> & _).
    simpl. unfold decodeError.
    destruct (k8sDecoder b' defaults) as [runtimeObj err]. simpl.
    destruct (IsNotRegisteredError err) eqn:Hreg'.
    + destruct (yamlUnmarshal b'); [|done]. intros [= ->]. auto.
    + auto.
Qed.

(** C9. When the deserializer succeeds with a runtime object that is
    no [k8s.Object] (it carries no object metadata), [DecodeAny]
    returns a nil object and a nil error, and touches nothing. *)
Theorem DecodeAny_nil_object_nil_error (b : string)
    (defaults : option GroupVersionKind) (patches : list (MutateFunc W))
    (s : Store W) (gvk : GroupVersionKind) (fields : gmap string JSON) :
  k8sDecoder b defaults = (Some (OtherObject gvk fields), None) →
  DecodeAny (inr b) defaults patches s = ((None, None), s).
Proof. intros Hdec. unfold DecodeAny. by rewrite Hdec. Qed.
End DecodeAnyFacts.

(** ** Handlers *)

Section HandlerFacts.
Context {W Ctx : Type}.

(** C10. The handler [DeleteIgnoreNotFound] builds is the create
    handler under the ignore-not-found wrapper: it calls [Create] of
    the client once, returns nil when [Create] succeeds or fails with
    a not-found error and the error of [Create] otherwise, and does
    not depend on the [Delete] (or [Update]) of the client. *)
Theorem DeleteIgnoreNotFound_is_create (r : Resources W Ctx)
    (opts : list CreateOption) (ctx : Ctx) (obj : option loc)
    (w : World W) :
  DeleteIgnoreNotFound r opts
  = IgnoreErrorHandler (CreateHandler r opts) IsNotFound
  ∧ DeleteIgnoreNotFound r opts ctx obj w
    = (let '(err, w') := Create r ctx obj opts w in
       (match err with
        | Some e => if IsNotFound e then None else Some e
        | None => None
        end, w'))
  ∧ ∀ update delete,
      DeleteIgnoreNotFound
        {| Create := Create r; Update := update; Delete := delete |}
        opts ctx obj w
      = DeleteIgnoreNotFound r opts ctx obj w.
Proof.
  split; [reflexivity|]. split; [|reflexivity].
  unfold DeleteIgnoreNotFound, IgnoreErrorHandler, CreateHandler, ebind.
  destruct (Create r ctx obj opts w) as [[e|] w']; [|done].
  by destruct (IsNotFound e).
Qed.
End HandlerFacts.

(** ** Streams of documents *)

Section StreamFacts.
Context {W Ctx : Type} `{!Codec}.
Implicit Types (s : Store W) (patches : list (MutateFunc W))
  (handlerFn : HandlerFunc W Ctx) (defaults : option GroupVersionKind).

Lemma mapM_app {A B} (f : A → M W B) (l1 l2 : list A) s :
  mapM f (l1 ++ l2) s
  = (let '(r1, s1) := mapM f l1 s in
     let '(r2, s2) := mapM f l2 s1 in (r1 ++ r2, s2)).
Proof.
  revert s. induction l1 as [|a l1 IH]; intros s; simpl.
  - unfold ret. by destruct (mapM f l2 s).
  - unfold bind, ret. destruct (f a s) as [b s0]. rewrite IH.
    destruct (mapM f l1 s0) as [r1 s1]. by destruct (mapM f l2 s1).
Qed.

Lemma mapM_length {A B} (f : A → M W B) (l : list A) s :
  length (mapM f l s).1 = length l.
Proof.
  revert s. induction l as [|a l IH]; intros s; simpl; [done|].
  unfold bind, ret. destruct (f a s) as [b s0]. specialize (IH s0).
  destruct (mapM f l s0). simpl in *. by rewrite IH.
Qed.

Lemma invoke_spec handlerFn (ctx : Ctx) obj s :
  ∃ err w', handlerFn ctx obj (world s) = (err, w')
            ∧ invoke handlerFn ctx obj s
              = (err, mkStore w' (calls s ++ [EvHandler obj err])).
Proof.
  unfold invoke, bind, lift, emit, ret.
  destruct (handlerFn ctx obj (world s)) as [err w']. by eexists _, _.
Qed.

Lemma rangeInvoke_calls handlerFn (ctx : Ctx) (o : list (option loc)) s :
  ∃ evs, calls (rangeInvoke handlerFn ctx o s).2 = calls s ++ evs
         ∧ evObj <$> evs = o.
Proof.
  revert s. induction o as [|obj o IH]; intros s; simpl.
  - exists []. by rewrite app_nil_r.
  - unfold bind.
    destruct (invoke_spec handlerFn ctx obj s) as (err & w' & _ & ->).
    destruct (IH (mkStore w' (calls s ++ [EvHandler obj err])))
      as (evs & Hc & Ho).
    exists (EvHandler obj err :: evs). simpl in *.
    split; [by rewrite Hc, <- app_assoc|]. by f_equal.
Qed.

(** A stream of documents that all decode: [DecodeAll] is the decoding
    of the documents one after the other. *)
Lemma DecodeAll_loop_ok (docs : list string) defaults patches objects s :
  Forall (λ b, decodeError b defaults = None) docs →
  DecodeAll_loop (Doc <$> docs) defaults patches objects s
  = (let '(rs, s') :=
       mapM (λ b, DecodeAny (inr b) defaults patches) docs s in
     ((objects ++ rs.*1, None), s')).
Proof.
  intros Hok. revert objects s.
  induction Hok as [|b docs Hb _ IH]; intros objects s; simpl.
  - unfold ret. by rewrite app_nil_r.
  - unfold bind.
    destruct (DecodeAny_shape b defaults patches s) as (obj & s1 & -> & _).
    rewrite Hb, IH. destruct (mapM _ docs s1) as [rs s']. simpl.
    unfold ret. by rewrite <- app_assoc.
Qed.

(** A stream whose first bad chunk comes after documents that decode:
    [DecodeAll] returns no object, and the error of that chunk. *)
Lemma DecodeAll_loop_fail (good : list string) (bad : Chunk)
    (rest : Stream) (e : error) defaults patches objects s :
  Forall (λ b, decodeError b defaults = None) good →
  chunkError defaults bad = Some e →
  (DecodeAll_loop ((Doc <$> good) ++ bad :: rest) defaults patches
                  objects s).1
  = ([], Some e).
Proof.
  intros Hok Hbad. revert objects s.
  induction Hok as [|b docs Hb _ IH]; intros objects s; simpl.
  - destruct bad as [b|e']; simpl in Hbad.
    + unfold bind.
      destruct (DecodeAny_shape b defaults patches s) as (obj & s1 & -> & _).
      by rewrite Hbad.
    + by injection Hbad as ->.
  - unfold bind.
    destruct (DecodeAny_shape b defaults patches s) as (obj & s1 & -> & _).
    rewrite Hb. apply IH.
Qed.

Lemma DecodeAll_loop_error manifest defaults patches objects s :
  (DecodeAll_loop manifest defaults patches objects s).1.2 ≠ None →
  (DecodeAll_loop manifest defaults patches objects s).1.1 = [].
Proof.
  revert objects s.
  induction manifest as [|[b|e] manifest IH]; intros objects s; simpl;
    [done| |done].
  unfold bind.
  destruct (DecodeAny_shape b defaults patches s) as (obj & s1 & -> & _).
  destruct (decodeError b defaults); [done|]. apply IH.
Qed.

Lemma DecodeObjects_loop_error manifest base patches objects s :
  (DecodeObjects_loop manifest base patches objects s).1.2 ≠ None →
  (DecodeObjects_loop manifest base patches objects s).1.1 = [].
Proof.
  revert objects s.
  induction manifest as [|[b|e] manifest IH]; intros objects s; simpl;
    unfold bind, lift, ret;
    destruct (DeepCopyObject base (world s)) as [obj w1]; simpl;
    [done| |done].
  destruct (decoderDecode b obj w1) as [[e|] w2]; [done|]. simpl.
  destruct (rangePatches patches obj w2) as [[] w3]. apply IH.
Qed.

Lemma DecodeObjects_loop_length manifest base patches objects s :
  (DecodeObjects_loop manifest base patches objects s).1.2 = None →
  length (DecodeObjects_loop manifest base patches objects s).1.1
  = length objects + length manifest.
Proof.
  revert objects s.
  induction manifest as [|[b|e] manifest IH]; intros objects s; simpl;
    unfold bind, lift, ret;
    destruct (DeepCopyObject base (world s)) as [obj w1]; simpl;
    [lia| |done].
  destruct (decoderDecode b obj w1) as [[e|] w2]; [done|]. simpl.
  destruct (rangePatches patches obj w2) as [[] w3]. intros Hn.
  rewrite IH by done. rewrite length_app. simpl. lia.
Qed.

(** Documents that all decode: [DecodeEach] returns nil and has called
    the handler once for every document, whatever the handler
    returned. *)
Lemma DecodeEach_all_invoked (ctx : Ctx) (docs : list string)
    defaults handlerFn patches s :
  Forall (λ b, decodeError b defaults = None) docs →
  ∃ s' evs,
    DecodeEach ctx (Doc <$> docs) defaults handlerFn patches s = (None, s')
    ∧ calls s' = calls s ++ evs
    ∧ length evs = length docs.
Proof.
  intros Hok. revert s.
  induction Hok as [|b docs Hb _ IH]; intros s; simpl.
  - exists s, []. by rewrite app_nil_r.
  - unfold bind.
    destruct (DecodeAny_shape b defaults patches s) as (obj & s1 & -> & Hc1).
    rewrite Hb.
    destruct (invoke_spec handlerFn ctx obj s1) as (err & w' & _ & ->).
    destruct (IH (mkStore w' (calls s1 ++ [EvHandler obj err])))
      as (s' & evs & Heq & Hc & Hlen).
    exists s', (EvHandler obj err :: evs). simpl in *.
    split; [exact Heq|]. rewrite Hc, Hc1, <- app_assoc. split; [done|].
    by rewrite Hlen.
Qed.
End StreamFacts.

(** ** Directories *)

Section FilesFacts.
Context {W Ctx : Type} `{!Codec} `{!PathLib}.
Implicit Types (s : Store W) (patches : list (MutateFunc W))
  (handlerFn : HandlerFunc W Ctx) (defaults : option GroupVersionKind)
  (fs : FileSystem).

Lemma mapM_DecodeAny_calls (docs : list string) defaults patches s :
  calls (mapM (λ b, DecodeAny (inr b) defaults patches) docs s).2 = calls s.
Proof.
  revert s. induction docs as [|b docs IH]; intros s; simpl; [done|].
  unfold bind, ret.
  destruct (DecodeAny_shape b defaults patches s) as (obj & s1 & -> & Hc).
  specialize (IH s1). destruct (mapM _ docs s1) as [rs s2]. simpl in *.
  by rewrite IH.
Qed.

Lemma DecodeAllFiles_loop_error fs files defaults patches objects s :
  (DecodeAllFiles_loop fs files defaults patches objects s).1.2 ≠ None →
  (DecodeAllFiles_loop fs files defaults patches objects s).1.1 = [].
Proof.
  revert objects s.
  induction files as [|file files IH]; intros objects s; simpl; [done|].
  destruct (Open fs file) as [e|f]; [done|]. unfold bind.
  destruct (DecodeAll f defaults patches s) as [[o [e|]] s1]; [done|].
  apply IH.
Qed.

Lemma DecodeAllFiles_loop_ok fs files docss defaults patches objects s :
  holds fs files docss →
  Forall (Forall (λ b, decodeError b defaults = None)) docss →
  DecodeAllFiles_loop fs files defaults patches objects s
  = (let '(rs, s') :=
       mapM (λ b, DecodeAny (inr b) defaults patches) (concat docss) s in
     ((objects ++ rs.*1, None), s')).
Proof.
  intros Hopen. revert objects s.
  induction Hopen as [|file docs files docss Hf _ IH];
    intros objects s Hok; simpl.
  - unfold ret. by rewrite app_nil_r.
  - apply Forall_cons in Hok as [Hdocs Hok].
    rewrite Hf. unfold bind, DecodeAll.
    rewrite (DecodeAll_loop_ok) by done.
    rewrite mapM_app.
    destruct (mapM _ docs s) as [r1 s1]. simpl.
    rewrite IH by done.
    destruct (mapM _ (concat docss) s1) as [r2 s2].
    by rewrite fmap_app, app_assoc.
Qed.

Lemma DecodeEachFile_loop_ok fs (ctx : Ctx) files docss defaults
    handlerFn patches s :
  holds fs files docss →
  Forall (Forall (λ b, decodeError b defaults = None)) docss →
  DecodeEachFile_loop fs ctx files defaults handlerFn patches s
  = (let '(_, s') := eachFile ctx docss defaults handlerFn patches s in
     (None, s')).
Proof.
  intros Hopen. revert s.
  induction Hopen as [|file docs files docss Hf _ IH];
    intros s Hok; simpl; [done|].
  apply Forall_cons in Hok as [Hdocs Hok].
  rewrite Hf. unfold bind, DecodeAll.
  rewrite (DecodeAll_loop_ok) by done.
  destruct (mapM _ docs s) as [r1 s1]. simpl.
  destruct (rangeInvoke handlerFn ctx r1.*1 s1) as [[] s2].
  rewrite IH by done. unfold ret.
  by destruct (eachFile ctx docss defaults handlerFn patches s2).
Qed.

(** The handler is called on the objects in the order they are
    decoded, once for every document. *)
Lemma eachFile_calls (ctx : Ctx) (docss : list (list string)) defaults
    handlerFn patches s :
  ∃ evs, calls (eachFile ctx docss defaults handlerFn patches s).2
         = calls s ++ evs
         ∧ evObj <$> evs = (eachFile ctx docss defaults handlerFn patches s).1
         ∧ length evs = length (concat docss).
Proof.
  revert s. induction docss as [|docs docss IH]; intros s; simpl.
  - exists []. by rewrite app_nil_r.
  - unfold bind, ret.
    pose proof (mapM_DecodeAny_calls docs defaults patches s) as Hc1.
    pose proof (mapM_length (λ b, DecodeAny (inr b) defaults patches)
                            docs s) as Hl1.
    destruct (mapM _ docs s) as [rs s1]. simpl in *.
    destruct (rangeInvoke_calls handlerFn ctx rs.*1 s1) as (ev1 & Hc2 & Ho).
    destruct (rangeInvoke handlerFn ctx rs.*1 s1) as [[] s2]. simpl in *.
    destruct (IH s2) as (ev2 & Hc3 & Ho3 & Hl3).
    destruct (eachFile ctx docss defaults handlerFn patches s2)
      as [objects s3]. simpl in *.
    exists (ev1 ++ ev2). rewrite Hc3, Hc2, Hc1, <- app_assoc.
    split; [done|]. split; [by rewrite fmap_app, Ho, Ho3|].
    rewrite !length_app, Hl3, <- Hl1.
    by rewrite <- (length_fmap evObj ev1), Ho, length_fmap.
Qed.

End FilesFacts.

(** ** The order of the files and of the handler calls *)

Section DispatchFacts.
Context {W Ctx : Type} `{!Codec} `{!PathLib}.

(** The loop over the objects of a file calls the handler on each, in
    order, on the world the previous call left. *)
Lemma rangeInvoke_dispatch (handlerFn : HandlerFunc W Ctx) (ctx : Ctx)
    (o : list (option loc)) s :
  rangeInvoke handlerFn ctx o s
  = (let '(evs, w') := dispatch handlerFn ctx o (world s) in
     (tt, mkStore w' (calls s ++ evs))).
Proof.
  revert s. induction o as [|obj o IH]; intros s; simpl.
  - unfold ret. rewrite app_nil_r. by destruct s.
  - unfold bind.
    destruct (invoke_spec handlerFn ctx obj s) as (err & w1 & Hh & ->).
    rewrite Hh, IH. simpl.
    destruct (dispatch handlerFn ctx o w1) as [evs w2].
    by rewrite <- app_assoc.
Qed.

Lemma DecodeEachFile_loop_handleFiles fs (ctx : Ctx) files docss defaults
    (handlerFn : HandlerFunc W Ctx) patches s :
  holds fs files docss →
  Forall (Forall (λ b, decodeError b defaults = None)) docss →
  DecodeEachFile_loop fs ctx files defaults handlerFn patches s
  = (None, handleFiles ctx docss defaults handlerFn patches s).
Proof.
  intros Hopen. revert s.
  induction Hopen as [|file docs files docss Hf _ IH];
    intros s Hok; simpl; [done|].
  apply Forall_cons in Hok as [Hdocs Hok].
  rewrite Hf. unfold bind, DecodeAll.
  rewrite (DecodeAll_loop_ok) by done.
  destruct (mapM _ docs s) as [r1 s1]. simpl.
  rewrite rangeInvoke_dispatch.
  destruct (dispatch handlerFn ctx r1.*1 (world s1)) as [evs w2].
  by rewrite IH.
Qed.

Lemma listResourceFiles_Sorted fs path files :
  listResourceFiles fs path = (files, None) → Sorted String.le files.
Proof.
  unfold listResourceFiles.
  assert (Hcont : ∀ directory base,
    (let '(yamls, err) := Glob fs directory base ".yaml" in
     if err is Some e then ([], Some e) else
     let '(ymls, err) := Glob fs directory base ".yml" in
     if err is Some e then ([], Some e) else
     let '(jsons, err) := Glob fs directory base ".json" in
     if err is Some e then ([], Some e) else
     (sortStrings (yamls ++ (ymls ++ jsons)), None)) = (files, None) →
    Sorted String.le files).
  { intros directory base.
    destruct (Glob fs directory base ".yaml") as [yamls [e|]]; [done|].
    destruct (Glob fs directory base ".yml") as [ymls [e|]]; [done|].
    destruct (Glob fs directory base ".json") as [jsons [e|]]; [done|].
    intros [= <-]. apply sortStrings_Sorted. }
  destruct (Stat fs path) as [e|fi].
  - destruct (negb (isDirectory fs (Dir path))); [done|]. apply Hcont.
  - destruct (IsDir fi); [|done]. apply Hcont.
Qed.

Lemma DecodeAllFiles_loop_app fs files docss rest defaults
    (patches : list (MutateFunc W)) objects s :
  holds fs files docss →
  Forall (Forall (λ b, decodeError b defaults = None)) docss →
  DecodeAllFiles_loop fs (files ++ rest) defaults patches objects s
  = (let '(rs, s') :=
       mapM (λ b, DecodeAny (inr b) defaults patches) (concat docss) s in
     DecodeAllFiles_loop fs rest defaults patches (objects ++ rs.*1) s').
Proof.
  intros Hopen. revert objects s.
  induction Hopen as [|file docs files docss Hf _ IH];
    intros objects s Hok; simpl.
  - unfold ret. by rewrite app_nil_r.
  - apply Forall_cons in Hok as [Hdocs Hok].
    rewrite Hf. unfold bind, DecodeAll.
    rewrite (DecodeAll_loop_ok) by done. rewrite mapM_app.
    destruct (mapM _ docs s) as [r1 s1]. simpl.
    rewrite IH by done.
    destruct (mapM _ (concat docss) s1) as [r2 s2].
    by rewrite fmap_app, (assoc_L (++)).
Qed.
End DispatchFacts.

Section OrderTheorem.
Context {W Ctx : Type} `{!Codec} `{!PathLib}.

(** C7. The files a directory resolves to are sorted by path.  When
    they open and their documents decode, the collect variant returns
    the objects obtained by decoding the documents one after the other,
    in the order of the documents in each file and of the files as
    resolved (one object per document), and the handler variant goes
    through the files in that order: it decodes the documents of a
    file in their order, then calls the handler on the objects of the
    file in that order, each call on the world the previous one left,
    and goes on to the next file; it returns no error, and the calls
    it has made are one per document, on the objects in the order
    they were decoded. *)
Theorem directory_decode_order fs (ctx : Ctx) (path : string)
    (files : list string) (docss : list (list string))
    defaults (handlerFn : HandlerFunc W Ctx) patches s :
  listResourceFiles fs path = (files, None) →
  holds fs files docss →
  Forall (Forall (λ b, decodeError b defaults = None)) docss →
  Sorted String.le files
  ∧ DecodeAllFiles fs path defaults patches s
    = (let '(rs, s') :=
         mapM (λ b, DecodeAny (inr b) defaults patches) (concat docss) s in
       ((rs.*1, None), s'))
  ∧ length (DecodeAllFiles fs path defaults patches s).1.1
    = length (concat docss)
  ∧ DecodeEachFile fs ctx path defaults handlerFn patches s
    = (None, handleFiles ctx docss defaults handlerFn patches s)
  ∧ DecodeEachFile fs ctx path defaults handlerFn patches s
    = (let '(_, s') := eachFile ctx docss defaults handlerFn patches s in
       (None, s'))
  ∧ ∃ evs,
      calls (DecodeEachFile fs ctx path defaults handlerFn patches s).2
      = calls s ++ evs
      ∧ evObj <$> evs
        = (eachFile ctx docss defaults handlerFn patches s).1
      ∧ length evs = length (concat docss).
Proof.
  intros Hfiles Hopen Hok.
  assert (Hall : DecodeAllFiles fs path defaults patches s
    = (let '(rs, s') :=
         mapM (λ b, DecodeAny (inr b) defaults patches) (concat docss) s in
       ((rs.*1, None), s'))).
  { unfold DecodeAllFiles. rewrite Hfiles.
    by rewrite (DecodeAllFiles_loop_ok _ _ docss). }
  assert (Heach : DecodeEachFile fs ctx path defaults handlerFn patches s
    = (let '(_, s') := eachFile ctx docss defaults handlerFn patches s in
       (None, s'))).
  { unfold DecodeEachFile. rewrite Hfiles.
    by rewrite (DecodeEachFile_loop_ok _ _ _ docss). }
  split; [by eapply listResourceFiles_Sorted|].
  split; [exact Hall|]. split; [|split; [|split; [exact Heach|]]].
  - rewrite Hall.
    pose proof (mapM_length (λ b, DecodeAny (inr b) defaults patches)
                            (concat docss) s) as Hl.
    destruct (mapM _ (concat docss) s) as [rs s']. simpl in *.
    by rewrite length_fmap.
  - unfold DecodeEachFile. rewrite Hfiles.
    by apply DecodeEachFile_loop_handleFiles.
  - rewrite Heach.
    destruct (eachFile_calls ctx docss defaults handlerFn patches s)
      as (evs & Hc & Ho & Hl).
    exists evs. by destruct (eachFile _ _ _ _ _ s).
Qed.
End OrderTheorem.

(** ** Objects in the heap: footprints and confinement *)

Section FootprintFacts.
Context {W : Type}.
Implicit Types (w : World W) (h : gmap loc Cell) (obj : loc).

Lemma readMap_weaken h h' r x :
  h ⊆ h' → readMap h r = Some x → readMap h' r = Some x.
Proof.
  intros Hs. destruct r as [r|]; [|done]. simpl.
  destruct (h !! r) as [c|] eqn:E; [|done].
  by rewrite (lookup_weaken _ _ _ _ E Hs).
Qed.

Lemma readMap_dom h r x l : readMap h r = Some x → l ∈ optLoc r → l ∈ dom h.
Proof.
  destruct r as [r|]; simpl; [|set_solver].
  intros Hr ->%elem_of_singleton. apply elem_of_dom.
  destruct (h !! r); [by eexists|done].
Qed.

Lemma obj_value_weaken h h' obj v :
  h ⊆ h' → obj_value h obj = Some v → obj_value h' obj = Some v.
Proof.
  intros Hs. unfold obj_value.
  destruct (h !! obj) as [[m|meta c]|] eqn:E; try done.
  rewrite (lookup_weaken _ _ _ _ E Hs).
  destruct (readMap h (Labels meta)) as [x|] eqn:E1; [|done].
  destruct (readMap h (Annotations meta)) as [y|] eqn:E2; [|done].
  by rewrite (readMap_weaken _ _ _ _ Hs E1), (readMap_weaken _ _ _ _ Hs E2).
Qed.

Lemma obj_value_is_object h obj v :
  obj_value h obj = Some v → ∃ meta, h !! obj = Some (ObjCell meta (vContent v)).
Proof.
  unfold obj_value. destruct (h !! obj) as [[m|meta c]|]; try done.
  destruct (readMap h (Labels meta)), (readMap h (Annotations meta));
    try done.
  intros [= <-]. by eexists.
Qed.

Lemma footprint_self h obj : obj ∈ footprint h obj.
Proof.
  unfold footprint. destruct (h !! obj) as [[]|]; set_solver.
Qed.

Lemma footprint_weaken h h' obj :
  h ⊆ h' → is_Some (h !! obj) → footprint h' obj = footprint h obj.
Proof.
  intros Hs [c E]. unfold footprint.
  by rewrite E, (lookup_weaken _ _ _ _ E Hs).
Qed.

Lemma footprint_dom h obj :
  is_Some (obj_value h obj) → footprint h obj ⊆ dom h.
Proof.
  intros [v Hv]. unfold obj_value, footprint in *.
  destruct (h !! obj) as [[m|meta c]|] eqn:E; try done.
  destruct (readMap h (Labels meta)) as [x|] eqn:E1; [|done].
  destruct (readMap h (Annotations meta)) as [y|] eqn:E2; [|done].
  intros l [[->%elem_of_singleton|Hl]%elem_of_union|Hl]%elem_of_union.
  - by apply elem_of_dom.
  - exact (readMap_dom _ _ _ _ E1 Hl).
  - exact (readMap_dom _ _ _ _ E2 Hl).
Qed.

(** The value of an object is read from its cells alone. *)
Lemma obj_value_agree h h' obj :
  (∀ l, l ∈ footprint h obj → h' !! l = h !! l) →
  obj_value h' obj = obj_value h obj.
Proof.
  intros Hag. unfold obj_value.
  rewrite (Hag obj (footprint_self h obj)).
  unfold footprint in Hag.
  destruct (h !! obj) as [[m|meta c]|]; try done.
  assert (∀ r, optLoc r ⊆ {[obj]} ∪ optLoc (Labels meta)
                           ∪ optLoc (Annotations meta) →
               readMap h' r = readMap h r) as Hr.
  { intros [r|] Hsub; [|done]. simpl. rewrite Hag; [done|].
    apply Hsub. simpl. set_solver. }
  rewrite !Hr; [done|set_solver..].
Qed.

Lemma modifies_refl obj w : modifies obj w w.
Proof. unfold modifies. set_solver. Qed.

Lemma modifies_trans obj w1 w2 w3 :
  modifies obj w1 w2 → modifies obj w2 w3 → modifies obj w1 w3.
Proof.
  intros (Ha1 & Hb1 & Hc1 & Hd1) (Ha2 & Hb2 & Hc2 & Hd2).
  split; [|split; [|split]].
  - intros l Hl Hnl. rewrite Ha2, Ha1; [done..| |].
    + set_solver.
    + intros Hin. apply Hc1 in Hin. set_solver.
  - set_solver.
  - set_solver.
  - auto.
Qed.

Lemma rangePatches_modifies (patches : list (MutateFunc W)) obj w :
  Forall confined patches → modifies obj w (rangePatches patches obj w).2.
Proof.
  intros Hc. revert w.
  induction Hc as [|patch patches Hp _ IH]; intros w; simpl.
  - apply modifies_refl.
  - unfold ebind. specialize (Hp obj w).
    destruct (patch obj w) as [err w1]. simpl in *.
    eapply modifies_trans; [exact Hp|apply IH].
Qed.

(** The patches run in the order of the list: those of a first part,
    then those of the rest on what the first part left. *)
Lemma rangePatches_app (patches1 patches2 : list (MutateFunc W)) obj w :
  rangePatches (patches1 ++ patches2) obj w
  = rangePatches patches2 obj (rangePatches patches1 obj w).2.
Proof.
  revert w. induction patches1 as [|patch patches1 IH]; intros w; simpl.
  - done.
  - unfold ebind. destruct (patch obj w) as [err w1]. apply IH.
Qed.

(** Work on a new object leaves the heap it was allocated in as it
    was. *)
Lemma modifies_new h0 obj w w' :
  h0 ⊆ heap w → footprint (heap w) obj ⊆ dom (heap w) ∖ dom h0 →
  modifies obj w w' →
  h0 ⊆ heap w' ∧ footprint (heap w') obj ⊆ dom (heap w') ∖ dom h0.
Proof.
  intros Hs Hf (Ha & Hb & Hc & _). split.
  - apply map_subseteq_spec. intros l c Hl.
    assert (l ∈ dom h0) by (apply elem_of_dom; eauto).
    rewrite Ha.
    + by apply (lookup_weaken _ _ _ _ Hl).
    + apply (subseteq_dom _ _ Hs). done.
    + set_solver.
  - apply subseteq_dom in Hs. set_solver.
Qed.
End FootprintFacts.

(** Freshness of the locations [new] has picked, as hypotheses. *)
Ltac fresh_facts :=
  repeat match goal with
  | |- context [fresh (dom ?h)] =>
      lazymatch goal with
      | _ : fresh (dom h) ∉ dom h |- _ => fail
      | _ => pose proof (is_fresh (dom h))
      end
  | _ : context [fresh (dom ?h)] |- _ =>
      lazymatch goal with
      | _ : fresh (dom h) ∉ dom h |- _ => fail
      | _ => pose proof (is_fresh (dom h))
      end
  end;
  rewrite ?dom_insert_L in *.

Section AllocationFacts.
Context {W : Type}.
Implicit Types (w : World W) (h : gmap loc Cell) (obj : loc).

Lemma newObject_footprint (v : ObjValue) w :
  footprint (heap (newObject v w).2) (newObject v w).1
  ⊆ dom (heap (newObject v w).2) ∖ dom (heap w)
  ∧ separated (heap (newObject v w).2) (newObject v w).1.
Proof.
  unfold newObject, newMap, ebind, eret, new, footprint, separated.
  destruct v as [[n ns [l|] [a|]] c]; simpl;
    rewrite !lookup_insert_eq; simpl; fresh_facts;
    (split; [set_solver|]); intros meta c' l' [= <- <-]; simpl;
    try done; intros [= <-] [= Heq]; rewrite Heq in *; set_solver.
Qed.

(** A deep copy is a new object with the value of the one copied. *)
Lemma DeepCopyObject_newObject obj w v :
  obj_value (heap w) obj = Some v →
  DeepCopyObject obj w = newObject v w.
Proof.
  unfold obj_value, DeepCopyObject, newObject.
  destruct (heap w !! obj) as [[m|meta c]|] eqn:E; try done.
  destruct (readMap (heap w) (Labels meta)) as [x|] eqn:E1; [|done].
  destruct (readMap (heap w) (Annotations meta)) as [y|] eqn:E2; [|done].
  intros [= <-]. simpl. unfold ebind, copyMap, newMap, eret.
  destruct (Labels meta) as [l|], (Annotations meta) as [a|]; simpl in *.
  - destruct (heap w !! l) as [[ml|]|] eqn:El; try done.
    destruct (heap w !! a) as [[ma|]|] eqn:Ea; try done.
    simplify_eq. unfold ebind. simpl.
    rewrite lookup_insert_ne, Ea; [done|].
    intros <-. by rewrite fresh_lookup in Ea.
  - destruct (heap w !! l) as [[ml|]|] eqn:El; try done.
    by simplify_eq.
  - destruct (heap w !! a) as [[ma|]|] eqn:Ea; try done.
    by simplify_eq.
  - by simplify_eq.
Qed.

Lemma DeepCopyObject_spec obj w v :
  obj_value (heap w) obj = Some v →
  ∃ copy w', DeepCopyObject obj w = (copy, w')
             ∧ obj_value (heap w') copy = Some v
             ∧ heap w ⊆ heap w'
             ∧ footprint (heap w') copy ⊆ dom (heap w') ∖ dom (heap w)
             ∧ separated (heap w') copy
             ∧ ext w' = ext w.
Proof.
  intros Hv. rewrite (DeepCopyObject_newObject _ _ _ Hv).
  destruct (newObject_spec v w) as (copy & w' & Heq & Hv' & Hs & _ & He).
  pose proof (newObject_footprint v w) as [Hf Hsep]. rewrite Heq in *.
  by exists copy, w'.
Qed.
End AllocationFacts.

Section DecodeIntoFacts.
Context {W : Type}.
Implicit Types (w : World W) (h : gmap loc Cell) (obj : loc).

(** An object whose value can be read: its cell and the cells of its
    maps, which are not the object itself. *)
Lemma obj_value_cells h obj :
  is_Some (obj_value h obj) →
  ∃ meta c, h !! obj = Some (ObjCell meta c)
    ∧ (∀ l, Labels meta = Some l → ∃ m, h !! l = Some (MapCell m))
    ∧ (∀ l, Annotations meta = Some l → ∃ m, h !! l = Some (MapCell m)).
Proof.
  intros [v Hv]. unfold obj_value in Hv.
  destruct (h !! obj) as [[m|meta c]|] eqn:E; try done.
  destruct (readMap h (Labels meta)) as [x|] eqn:E1; [|done].
  destruct (readMap h (Annotations meta)) as [y|] eqn:E2; [|done].
  exists meta, c. split; [done|]. split; intros l Hl; rewrite Hl in *;
    simpl in *; destruct (h !! l) as [[]|]; try done; by eexists.
Qed.

Lemma storeValue_modifies obj (v' : ObjValue) w :
  is_Some (obj_value (heap w) obj) →
  modifies obj w (storeValue obj v' w).2.
Proof.
  intros Hv. pose proof (footprint_dom _ _ Hv) as Hfd.
  destruct (obj_value_cells _ _ Hv) as (meta & c & E & Hl & Ha).
  unfold modifies, storeValue, obj_value, footprint in *. rewrite E in *.
  destruct meta as [n ns [r|] [a|]], v' as [[n' ns' [ml|] [ma|]] c'];
    simpl in *; unfold ebind, storeMap, new, eret; simpl;
    try (destruct (Hl r eq_refl) as [mr Hr]);
    try (destruct (Ha a eq_refl) as [mq Hq]);
    try (assert (r ≠ obj) by congruence);
    try (assert (a ≠ obj) by congruence);
    try (destruct (decide (r = a)) as [->|?]);
    fresh_facts;
    (split; [intros l ? ?; by rewrite !lookup_insert_ne by set_solver|]);
    (split; [set_solver|]);
    rewrite !lookup_insert_eq; simpl;
    (split; [set_solver|]); intros _;
    repeat (rewrite lookup_insert_eq || rewrite lookup_insert_ne by set_solver);
    rewrite ?Hr, ?Hq; eauto.
Qed.
Lemma storeValue_value obj (v' : ObjValue) w :
  is_Some (obj_value (heap w) obj) → separated (heap w) obj →
  obj_value (heap (storeValue obj v' w).2) obj = Some v'.
Proof.
  intros Hv Hsep.
  destruct (obj_value_cells _ _ Hv) as (meta & c & E & Hl & Ha).
  specialize (Hsep meta c).
  unfold storeValue, obj_value in *. rewrite E in *.
  destruct meta as [n ns [r|] [a|]], v' as [[n' ns' [ml|] [ma|]] c'];
    simpl in *; unfold ebind, storeMap, new, eret; simpl;
    try (destruct (Hl r eq_refl) as [mr Hr]);
    try (destruct (Ha a eq_refl) as [mq Hq]);
    try (assert (r ≠ obj) by congruence);
    try (assert (a ≠ obj) by congruence);
    try (assert (a ≠ r) by (intros ->; by apply (Hsep r eq_refl)));
    try (assert (r ∈ dom (heap w)) by (apply elem_of_dom; eauto));
    try (assert (a ∈ dom (heap w)) by (apply elem_of_dom; eauto));
    assert (obj ∈ dom (heap w)) by (apply elem_of_dom; eauto);
    fresh_facts;
    repeat (rewrite lookup_insert_eq || rewrite lookup_insert_ne by set_solver);
    simpl;
    repeat (rewrite lookup_insert_eq || rewrite lookup_insert_ne by set_solver);
    done.
Qed.

Context `{!Codec}.

Lemma decoderDecode_modifies (b : string) obj w :
  modifies obj w (decoderDecode b obj w).2.
Proof.
  unfold decoderDecode.
  destruct (obj_value (heap w) obj) as [v|] eqn:Hv;
    [|apply modifies_refl].
  destruct (decodeInto b v) as [e|v']; [apply modifies_refl|].
  pose proof (storeValue_modifies obj v' w) as Hm.
  destruct (storeValue obj v' w) as [[] w']. apply Hm. by eexists.
Qed.

(** What [Decode] does to an object whose maps are two maps: the
    object gets the value the document decodes to, or an error is
    returned. *)
Lemma decoderDecode_value (b : string) obj w v :
  obj_value (heap w) obj = Some v → separated (heap w) obj →
  match decodeInto b v with
  | inl e => decoderDecode b obj w = (Some e, w)
  | inr v' => ∃ w', decoderDecode b obj w = (None, w')
                    ∧ obj_value (heap w') obj = Some v'
  end.
Proof.
  intros Hv Hsep. unfold decoderDecode. rewrite Hv.
  destruct (decodeInto b v) as [e|v']; [done|].
  pose proof (storeValue_value obj v' w) as Hm.
  destruct (storeValue obj v' w) as [[] w']. exists w'. split; [done|].
  apply Hm; [by eexists|done].
Qed.
End DecodeIntoFacts.

(** ** Patches *)

Section PatchFacts.
Context {W : Type}.
Implicit Types (w : World W) (h : gmap loc Cell) (obj : loc)
  (overrides : gmap string string).

(** The loop over the overrides leaves the map with the overrides on
    top of what it held. *)
Lemma rangeStore_spec overrides (m : loc) w :
  rangeStore overrides m w
  = (tt, match heap w !! m with
         | Some (MapCell entries) =>
             setHeap (<[m := MapCell (overrides ∪ entries)]> (heap w)) w
         | _ => w
         end).
Proof.
  unfold rangeStore. f_equal.
  apply (map_fold_weak_ind (λ r ov,
    r = match heap w !! m with
        | Some (MapCell entries) =>
            setHeap (<[m := MapCell (ov ∪ entries)]> (heap w)) w
        | _ => w
        end)).
  - destruct (heap w !! m) as [[entries|]|] eqn:E; try done.
    rewrite (left_id_L ∅ (∪)), insert_id by done. by destruct w.
  - intros key value ov r _ ->. unfold mapStore.
    destruct (heap w !! m) as [[entries|]|] eqn:E; simpl; rewrite ?E;
      try done.
    rewrite lookup_insert_eq. unfold setHeap. simpl.
    by rewrite insert_insert_eq, insert_union_l.
Qed.

#[local] Opaque rangeStore.

Lemma obj_value_intro h obj meta c :
  h !! obj = Some (ObjCell meta c) →
  (∀ l, Labels meta = Some l → ∃ m, h !! l = Some (MapCell m)) →
  (∀ l, Annotations meta = Some l → ∃ m, h !! l = Some (MapCell m)) →
  is_Some (obj_value h obj).
Proof.
  intros E Hl Ha. unfold obj_value. rewrite E.
  destruct meta as [n ns [l|] [a|]]; simpl in *;
    try (destruct (Hl l eq_refl) as [ml ->]);
    try (destruct (Ha a eq_refl) as [ma ->]); eauto.
Qed.

Lemma MutateLabels_run overrides obj w :
  MutateLabels overrides obj w
  = (None,
     match heap w !! obj with
     | Some (ObjCell meta c) =>
         match Labels meta with
         | Some l =>
             match heap w !! l with
             | Some (MapCell entries) =>
                 setHeap (<[l := MapCell (overrides ∪ entries)]> (heap w)) w
             | _ => w
             end
         | None =>
             let l := fresh (dom (heap w)) in
             setHeap (<[l := MapCell overrides]>
                      (<[obj := ObjCell {| metaName := metaName meta;
                                           metaNamespace := metaNamespace meta;
                                           Labels := Some l;
                                           Annotations := Annotations meta |}
                                        c]>
                       (<[l := MapCell ∅]> (heap w)))) w
         end
     | _ =>
         let l := fresh (dom (heap w)) in
         setHeap (<[l := MapCell overrides]> (heap w)) w
     end).
Proof.
  unfold MutateLabels, ebind, eret, GetLabels, SetLabels, new. simpl.
  destruct (heap w !! obj) as [[mo|[n ns [l|] a] c]|] eqn:E; simpl;
    rewrite ?rangeStore_spec; simpl.
  - assert (obj ≠ fresh (dom (heap w)))
      by (intros ->; by rewrite fresh_lookup in E).
    rewrite lookup_insert_ne, E by done.
    rewrite rangeStore_spec. simpl. rewrite lookup_insert_eq.
    unfold setHeap. simpl.
    by rewrite insert_insert_eq, (right_id_L ∅ (∪)).
  - done.
  - assert (obj ≠ fresh (dom (heap w)))
      by (intros ->; by rewrite fresh_lookup in E).
    rewrite lookup_insert_ne, E by done.
    rewrite rangeStore_spec. simpl.
    rewrite lookup_insert_ne by done.
    rewrite lookup_insert_eq. unfold setHeap. simpl.
    by rewrite (right_id_L ∅ (∪)).
  - destruct (decide (obj = fresh (dom (heap w)))) as [->|Hne].
    + rewrite lookup_insert_eq, rangeStore_spec. simpl.
      rewrite lookup_insert_eq. unfold setHeap. simpl.
      by rewrite insert_insert_eq, (right_id_L ∅ (∪)).
    + rewrite lookup_insert_ne, E by done. rewrite rangeStore_spec. simpl.
      rewrite lookup_insert_eq. unfold setHeap. simpl.
      by rewrite insert_insert_eq, (right_id_L ∅ (∪)).
Qed.
Lemma MutateAnnotations_run overrides obj w :
  MutateAnnotations overrides obj w
  = (None,
     match heap w !! obj with
     | Some (ObjCell meta c) =>
         match Annotations meta with
         | Some a =>
             match heap w !! a with
             | Some (MapCell entries) =>
                 setHeap (<[a := MapCell (overrides ∪ entries)]> (heap w)) w
             | _ => w
             end
         | None =>
             let l := fresh (dom (heap w)) in
             setHeap (<[l := MapCell overrides]>
                      (<[obj := ObjCell {| metaName := metaName meta;
                                           metaNamespace := metaNamespace meta;
                                           Labels := Some l;
                                           Annotations := Annotations meta |}
                                        c]>
                       (<[l := MapCell ∅]> (heap w)))) w
         end
     | _ =>
         let l := fresh (dom (heap w)) in
         setHeap (<[l := MapCell overrides]> (heap w)) w
     end).
Proof.
  unfold MutateAnnotations, ebind, eret, GetAnnotations, SetLabels, new.
  simpl.
  destruct (heap w !! obj) as [[mo|[n ns l [a|]] c]|] eqn:E; simpl;
    rewrite ?rangeStore_spec; simpl.
  - assert (obj ≠ fresh (dom (heap w)))
      by (intros ->; by rewrite fresh_lookup in E).
    rewrite lookup_insert_ne, E by done.
    rewrite rangeStore_spec. simpl. rewrite lookup_insert_eq.
    unfold setHeap. simpl.
    by rewrite insert_insert_eq, (right_id_L ∅ (∪)).
  - done.
  - assert (obj ≠ fresh (dom (heap w)))
      by (intros ->; by rewrite fresh_lookup in E).
    rewrite lookup_insert_ne, E by done.
    rewrite rangeStore_spec. simpl.
    rewrite lookup_insert_ne by done.
    rewrite lookup_insert_eq. unfold setHeap. simpl.
    by rewrite (right_id_L ∅ (∪)).
  - destruct (decide (obj = fresh (dom (heap w)))) as [->|Hne].
    + rewrite lookup_insert_eq, rangeStore_spec. simpl.
      rewrite lookup_insert_eq. unfold setHeap. simpl.
      by rewrite insert_insert_eq, (right_id_L ∅ (∪)).
    + rewrite lookup_insert_ne, E by done. rewrite rangeStore_spec. simpl.
      rewrite lookup_insert_eq. unfold setHeap. simpl.
      by rewrite insert_insert_eq, (right_id_L ∅ (∪)).
Qed.

(** Writing a map of the object, and giving the object a new map. *)
Lemma modifies_map_write obj w (l : loc) (m entries : gmap string string) :
  heap w !! l = Some (MapCell entries) → l ∈ footprint (heap w) obj →
  modifies obj w (setHeap (<[l := MapCell m]> (heap w)) w).
Proof.
  intros El Hin.
  assert (Hfp : footprint (<[l := MapCell m]> (heap w)) obj
                = footprint (heap w) obj).
  { unfold footprint. destruct (decide (l = obj)) as [->|Hne].
    - by rewrite lookup_insert_eq, El.
    - by rewrite lookup_insert_ne. }
  split; [|split; [|split]]; simpl.
  - intros l' _ Hn. rewrite lookup_insert_ne; [done|]. by intros ->.
  - rewrite dom_insert_L. set_solver.
  - rewrite Hfp. set_solver.
  - intros Hv. destruct (obj_value_cells _ _ Hv) as (meta & c & E & Hl & Ha).
    assert (l ≠ obj) by congruence.
    apply (obj_value_intro _ _ meta c).
    + by rewrite lookup_insert_ne.
    + intros l' [m' Hl']%Hl. destruct (decide (l = l')) as [->|?].
      * rewrite lookup_insert_eq. eauto.
      * rewrite lookup_insert_ne by done. eauto.
    + intros l' [m' Hl']%Ha. destruct (decide (l = l')) as [->|?].
      * rewrite lookup_insert_eq. eauto.
      * rewrite lookup_insert_ne by done. eauto.
Qed.

Lemma modifies_alloc obj w (m : gmap string string) :
  modifies obj w
    (setHeap (<[fresh (dom (heap w)) := MapCell m]> (heap w)) w).
Proof.
  pose proof (fresh_lookup (heap w)) as Hf.
  split; [|split; [|split]]; simpl.
  - intros l' Hd _. rewrite lookup_insert_ne; [done|].
    intros <-. apply elem_of_dom in Hd as [? ?]. congruence.
  - rewrite dom_insert_L. set_solver.
  - unfold footprint.
    destruct (decide (fresh (dom (heap w)) = obj)) as [<-|Hne].
    + rewrite lookup_insert_eq. destruct (heap w !! _) as [[]|]; set_solver.
    + rewrite lookup_insert_ne by done. set_solver.
  - intros [v Hv]. exists v.
    eapply obj_value_weaken; [|exact Hv]. by apply insert_subseteq.
Qed.

(** The object gets a new map as its label map, holding [m]. *)
Lemma modifies_new_labels obj w meta c (m : gmap string string) :
  heap w !! obj = Some (ObjCell meta c) →
  let l := fresh (dom (heap w)) in
  modifies obj w
    (setHeap (<[l := MapCell m]>
              (<[obj := ObjCell {| metaName := metaName meta;
                                   metaNamespace := metaNamespace meta;
                                   Labels := Some l;
                                   Annotations := Annotations meta |} c]>
               (<[l := MapCell ∅]> (heap w)))) w).
Proof.
  intros E l. pose proof (fresh_lookup (heap w)) as Hf. fold l in Hf.
  assert (l ≠ obj) by congruence.
  split; [|split; [|split]]; simpl.
  - intros l' Hd Hn.
    assert (l' ≠ obj) by (intros ->; apply Hn, footprint_self).
    assert (l' ≠ l) by (intros ->; apply elem_of_dom in Hd as [? ?];
                        congruence).
    by rewrite !lookup_insert_ne.
  - rewrite !dom_insert_L. set_solver.
  - unfold footprint. rewrite lookup_insert_ne, lookup_insert_eq, E by done.
    simpl. rewrite !dom_insert_L.
    assert (l ∉ dom (heap w)) by by apply not_elem_of_dom.
    set_solver.
  - intros Hv. destruct (obj_value_cells _ _ Hv) as (meta' & c' & E' & _ & Ha).
    rewrite E in E'. injection E' as <- <-.
    eapply obj_value_intro.
    + by rewrite lookup_insert_ne, lookup_insert_eq.
    + simpl. intros l' [= <-]. rewrite lookup_insert_eq. eauto.
    + simpl. intros l' [m' Hl']%Ha.
      assert (l' ≠ l) by congruence. assert (l' ≠ obj) by congruence.
      rewrite !lookup_insert_ne by done. eauto.
Qed.

Lemma MutateLabels_confined overrides :
  confined (W:=W) (MutateLabels overrides).
Proof.
  intros obj w. rewrite MutateLabels_run. simpl.
  destruct (heap w !! obj) as [[mo|meta c]|] eqn:E;
    [apply modifies_alloc| |apply modifies_alloc].
  destruct (Labels meta) as [l|] eqn:El.
  - destruct (heap w !! l) as [[entries|]|] eqn:E';
      [|apply modifies_refl..].
    eapply modifies_map_write; [done|].
    unfold footprint. rewrite E, El. set_solver.
  - by apply modifies_new_labels.
Qed.

Lemma MutateAnnotations_confined overrides :
  confined (W:=W) (MutateAnnotations overrides).
Proof.
  intros obj w. rewrite MutateAnnotations_run. simpl.
  destruct (heap w !! obj) as [[mo|meta c]|] eqn:E;
    [apply modifies_alloc| |apply modifies_alloc].
  destruct (Annotations meta) as [a|] eqn:Ea.
  - destruct (heap w !! a) as [[entries|]|] eqn:E';
      [|apply modifies_refl..].
    eapply modifies_map_write; [done|].
    unfold footprint. rewrite E, Ea. set_solver.
  - pose proof (modifies_new_labels obj w meta c overrides E) as Hm.
    simpl in Hm. by rewrite Ea in Hm.
Qed.

Lemma MutateNamespace_confined (namespace : string) :
  confined (W:=W) (MutateNamespace namespace).
Proof.
  intros obj w. unfold MutateNamespace, ebind, eret, SetNamespace. simpl.
  destruct (heap w !! obj) as [[mo|meta c]|] eqn:E;
    [apply modifies_refl| |apply modifies_refl].
  split; [|split; [|split]]; simpl.
  - intros l' _ Hn. rewrite lookup_insert_ne; [done|].
    intros <-. apply Hn, footprint_self.
  - rewrite dom_insert_L. set_solver.
  - unfold footprint. rewrite lookup_insert_eq, E. simpl. set_solver.
  - intros Hv. destruct (obj_value_cells _ _ Hv) as (meta' & c' & E' & Hl & Ha).
    rewrite E in E'. injection E' as <- <-.
    eapply obj_value_intro; [by rewrite lookup_insert_eq|..]; simpl.
    + intros l' [m' Hl']%Hl. assert (l' ≠ obj) by congruence.
      rewrite lookup_insert_ne by done. eauto.
    + intros l' [m' Hl']%Ha. assert (l' ≠ obj) by congruence.
      rewrite lookup_insert_ne by done. eauto.
Qed.
(** An object seen through its value: its cell and its references. *)
Lemma obj_value_inv h obj v :
  obj_value h obj = Some v →
  ∃ meta, h !! obj = Some (ObjCell meta (vContent v))
    ∧ metaName meta = vName (vMeta v)
    ∧ metaNamespace meta = vNamespace (vMeta v)
    ∧ readMap h (Labels meta) = Some (vLabels (vMeta v))
    ∧ readMap h (Annotations meta) = Some (vAnnotations (vMeta v)).
Proof.
  unfold obj_value. destruct (h !! obj) as [[m|meta c]|]; try done.
  destruct (readMap h (Labels meta)) as [x|] eqn:E1; [|done].
  destruct (readMap h (Annotations meta)) as [y|] eqn:E2; [|done].
  intros [= <-]. exists meta. by rewrite E1, E2.
Qed.

Lemma readMap_Some_inv h r m :
  readMap h r = Some (Some m) → ∃ l, r = Some l ∧ h !! l = Some (MapCell m).
Proof.
  destruct r as [l|]; [|done]. simpl.
  destruct (h !! l) as [[m'|]|] eqn:E; try done. intros [= ->]. eauto.
Qed.

Lemma readMap_None_inv h r : readMap h r = Some None → r = None.
Proof.
  destruct r as [l|]; [|done]. simpl. by destruct (h !! l) as [[m'|]|].
Qed.

(** What the label patch does to the value of an object: the
    overrides are merged into the label map, which is created when the
    object has none; nothing else changes. *)
Lemma MutateLabels_value overrides obj w v :
  obj_value (heap w) obj = Some v → separated (heap w) obj →
  obj_value (heap (MutateLabels overrides obj w).2) obj
  = Some {| vMeta :=
              {| vName := vName (vMeta v);
                 vNamespace := vNamespace (vMeta v);
                 vLabels := Some (overrides ∪ default ∅ (vLabels (vMeta v)));
                 vAnnotations := vAnnotations (vMeta v) |};
            vContent := vContent v |}.
Proof.
  intros Hv Hsep.
  destruct (obj_value_inv _ _ _ Hv) as (meta & E & Hn & Hns & Hl & Ha).
  specialize (Hsep meta (vContent v)).
  pose proof (λ l, Hsep l E) as Hsep'. clear Hsep. rename Hsep' into Hsep.
  rewrite MutateLabels_run, E. simpl. unfold obj_value.
  destruct (vLabels (vMeta v)) as [x|] eqn:Ex.
  - destruct (readMap_Some_inv _ _ _ Hl) as (l & El & Hcell).
    rewrite El, Hcell. simpl.
    assert (l ≠ obj) by congruence.
    rewrite lookup_insert_ne, E, El by done. simpl.
    rewrite lookup_insert_eq.
    assert (readMap (<[l:=MapCell (overrides ∪ x)]> (heap w))
                    (Annotations meta)
            = Some (vAnnotations (vMeta v))) as ->.
    { destruct (Annotations meta) as [a|] eqn:Ea'; [|done].
      simpl in *. rewrite lookup_insert_ne; [done|].
      intros ->. by apply (Hsep a). }
    by rewrite Hn, Hns.
  - apply readMap_None_inv in Hl as Hnil. rewrite Hnil. simpl.
    pose proof (fresh_lookup (heap w)) as Hf.
    assert (fresh (dom (heap w)) ≠ obj) by congruence.
    rewrite lookup_insert_ne, lookup_insert_eq by done. simpl.
    rewrite lookup_insert_eq.
    assert (readMap (<[fresh (dom (heap w)):=MapCell overrides]>
                     (<[obj:=ObjCell
                               {| metaName := metaName meta;
                                  metaNamespace := metaNamespace meta;
                                  Labels := Some (fresh (dom (heap w)));
                                  Annotations := Annotations meta |}
                               (vContent v)]>
                      (<[fresh (dom (heap w)):=MapCell ∅]> (heap w))))
                    (Annotations meta)
            = Some (vAnnotations (vMeta v))) as ->.
    { destruct (Annotations meta) as [a|] eqn:Ea'; [|done].
      simpl in *.
      destruct (heap w !! a) as [[ma|]|] eqn:Eacell; try done.
      assert (a ≠ fresh (dom (heap w))) by congruence.
      assert (a ≠ obj) by congruence.
      by rewrite !lookup_insert_ne, Eacell by done. }
    by rewrite Hn, Hns, (right_id_L ∅ (∪)).
Qed.

(** The annotation patch on an object that has annotations: they get
    the overrides, the labels stay. *)
Lemma MutateAnnotations_present overrides obj w v
    (annotations : gmap string string) :
  obj_value (heap w) obj = Some v → separated (heap w) obj →
  vAnnotations (vMeta v) = Some annotations →
  obj_value (heap (MutateAnnotations overrides obj w).2) obj
  = Some {| vMeta :=
              {| vName := vName (vMeta v);
                 vNamespace := vNamespace (vMeta v);
                 vLabels := vLabels (vMeta v);
                 vAnnotations := Some (overrides ∪ annotations) |};
            vContent := vContent v |}.
Proof.
  intros Hv Hsep Hann.
  destruct (obj_value_inv _ _ _ Hv) as (meta & E & Hn & Hns & Hl & Ha).
  specialize (Hsep meta (vContent v)).
  pose proof (λ l, Hsep l E) as Hsep'. clear Hsep. rename Hsep' into Hsep.
  rewrite MutateAnnotations_run, E. simpl. unfold obj_value.
  rewrite Hann in Ha.
  destruct (readMap_Some_inv _ _ _ Ha) as (a & Ea & Hcell).
  rewrite Ea, Hcell. simpl.
  assert (a ≠ obj) by congruence.
  rewrite lookup_insert_ne, E, Ea by done. simpl.
  rewrite lookup_insert_eq.
  assert (readMap (<[a:=MapCell (overrides ∪ annotations)]> (heap w))
                  (Labels meta)
          = Some (vLabels (vMeta v))) as ->.
  { destruct (Labels meta) as [l|] eqn:El'; [|done].
    simpl in *. rewrite lookup_insert_ne; [done|].
    intros ->. by apply (Hsep l). }
  by rewrite Hn, Hns.
Qed.
End PatchFacts.

(** ** Decoding into copies of a base object *)

Section IsolationFacts.
Context {W : Type} `{!Codec}.
Implicit Types (w : World W) (s : Store W) (h : gmap loc Cell)
  (obj : loc) (patches : list (MutateFunc W)).

Lemma isolated_nil h0 h : h0 ⊆ h → isolated h0 h [].
Proof.
  intros Hs. split; [done|]. split; [constructor|].
  split; [by intros o ?%elem_of_nil|by intros o o' ?%elem_of_nil].
Qed.

Lemma isolated_frame h0 h objects : isolated h0 h objects → h0 ⊆ h.
Proof. by intros [? _]. Qed.

(** One more object, made of cells allocated since the others were. *)
Lemma isolated_snoc h0 h h' objects obj :
  isolated h0 h objects → h ⊆ h' →
  is_Some (obj_value h' obj) → footprint h' obj ⊆ dom h' ∖ dom h →
  isolated h0 h' (objects ++ [obj]).
Proof.
  intros (Hs & Hnd & Hobj & Hsep) Hsub Hv Hfp.
  assert (Hold : ∀ o, o ∈ objects →
            footprint h' o = footprint h o ∧ footprint h o ⊆ dom h).
  { intros o Ho. destruct (Hobj o Ho) as [[v Hvo] Hf]. split.
    - apply footprint_weaken; [done|].
      destruct (obj_value_is_object _ _ _ Hvo) as [meta ->]. by eexists.
    - set_solver. }
  pose proof (subseteq_dom _ _ Hsub) as Hd.
  pose proof (subseteq_dom _ _ Hs) as Hd0.
  split; [by etrans|]. split; [|split].
  - apply NoDup_app. split; [done|]. split; [|apply NoDup_singleton].
    intros o Ho Heq%list_elem_of_singleton. subst o.
    destruct (Hold _ Ho) as [_ Hin].
    pose proof (footprint_self h obj). pose proof (footprint_self h' obj).
    set_solver.
  - intros o [Ho|Heq%list_elem_of_singleton]%elem_of_app; [|subst o].
    + destruct (Hobj o Ho) as [[v Hvo] Hf].
      destruct (Hold _ Ho) as [-> _]. split; [|set_solver].
      exists v. by eapply obj_value_weaken.
    + split; [done|]. set_solver.
  - intros o o' [Ho|Heq%list_elem_of_singleton]%elem_of_app
           [Ho'|Heq'%list_elem_of_singleton]%elem_of_app Hne;
      try subst o; try subst o'.
    + destruct (Hold _ Ho) as [-> _], (Hold _ Ho') as [-> _]. by apply Hsep.
    + destruct (Hold _ Ho) as [-> ?]. set_solver.
    + destruct (Hold _ Ho') as [-> ?]. set_solver.
    + done.
Qed.

Lemma isolated_weaken h0 h h' objects :
  isolated h0 h objects → h ⊆ h' → isolated h0 h' objects.
Proof.
  intros (Hs & Hnd & Hobj & Hsep) Hsub.
  assert (Hold : ∀ o, o ∈ objects → footprint h' o = footprint h o).
  { intros o Ho. destruct (Hobj o Ho) as [[v Hvo] Hf].
    apply footprint_weaken; [done|].
    destruct (obj_value_is_object _ _ _ Hvo) as [meta ->]. by eexists. }
  pose proof (subseteq_dom _ _ Hsub) as Hd.
  split; [by etrans|]. split; [done|]. split.
  - intros o Ho. destruct (Hobj o Ho) as [[v Hvo] Hf].
    rewrite (Hold _ Ho). split; [|set_solver].
    exists v. by eapply obj_value_weaken.
  - intros o o' Ho Ho' Hne. rewrite (Hold _ Ho), (Hold _ Ho').
    by apply Hsep.
Qed.

(** A mutation confined to one of the objects is not seen in the value
    of another, nor in the value of an object that was there before. *)
Lemma isolated_mutation {A} h0 w objects (f : loc → Ext W A) o o' :
  isolated h0 (heap w) objects → confined f → o ∈ objects →
  (o' ∈ objects ∧ o' ≠ o) ∨ is_Some (obj_value h0 o') →
  obj_value (heap (f o w).2) o' = obj_value (heap w) o'.
Proof.
  intros (Hs & Hnd & Hobj & Hsep) Hf Ho Ho'.
  destruct (Hf o w) as (Ha & _). apply obj_value_agree.
  destruct (Hobj o Ho) as [_ Hfo].
  intros l Hl. apply Ha.
  - destruct Ho' as [[Ho' _]|Hv].
    + destruct (Hobj o' Ho') as [_ ?]. set_solver.
    + destruct Hv as [v Hv].
      apply (footprint_dom (heap w) o'); [|done].
      exists v. by eapply obj_value_weaken.
  - destruct Ho' as [[Ho' Hne]|Hv].
    + specialize (Hsep o' o Ho' Ho Hne). set_solver.
    + rewrite (footprint_weaken h0 (heap w)) in Hl; [|done|].
      * pose proof (footprint_dom h0 o' Hv). set_solver.
      * destruct Hv as [v Hv].
        destruct (obj_value_is_object _ _ _ Hv) as [meta ->]. by eexists.
Qed.

Lemma decoderDecode_error (b : string) obj w e w' :
  decoderDecode b obj w = (Some e, w') → w' = w.
Proof.
  unfold decoderDecode. destruct (obj_value (heap w) obj) as [v|].
  - destruct (decodeInto b v); [by intros [= _ <-]|].
    by destruct (storeValue obj _ w).
  - by intros [= _ <-].
Qed.

(** One turn of the loops: copy the base, decode into the copy, patch
    the copy.  The heap there was is untouched and the copy is made of
    new cells. *)
Lemma copy_decode_patch (base : loc) (b : string) patches w v0 :
  obj_value (heap w) base = Some v0 → Forall confined patches →
  ∃ obj w1 err w2 w3,
    DeepCopyObject base w = (obj, w1)
    ∧ decoderDecode b obj w1 = (err, w2)
    ∧ rangePatches patches obj w2 = (tt, w3)
    ∧ heap w ⊆ heap w1
    ∧ (err ≠ None → w2 = w1)
    ∧ heap w ⊆ heap w3
    ∧ is_Some (obj_value (heap w3) obj)
    ∧ footprint (heap w3) obj ⊆ dom (heap w3) ∖ dom (heap w)
    ∧ footprint (heap w1) obj ⊆ dom (heap w1) ∖ dom (heap w)
    ∧ modifies obj w1 w3
    ∧ match decodeInto b v0 with
      | inl e => err = Some e
      | inr v => err = None ∧ obj_value (heap w2) obj = Some v
      end.
Proof.
  intros Hv Hc.
  destruct (DeepCopyObject_spec _ _ _ Hv)
    as (obj & w1 & Hcopy & Hv1 & Hs1 & Hf1 & Hsep1 & _).
  destruct (decoderDecode b obj w1) as [err w2] eqn:Hdec.
  destruct (rangePatches patches obj w2) as [[] w3] eqn:Hp.
  exists obj, w1, err, w2, w3. split; [done|]. split; [done|].
  split; [done|]. split; [done|].
  assert (Hm : modifies obj w1 w3).
  { eapply modifies_trans.
    - pose proof (decoderDecode_modifies b obj w1) as Hm.
      by rewrite Hdec in Hm.
    - pose proof (rangePatches_modifies patches obj w2 Hc) as Hm.
      by rewrite Hp in Hm. }
  destruct (modifies_new _ _ _ _ Hs1 Hf1 Hm) as [Hs3 Hf3].
  split; [|split; [done|split; [|split; [done|split; [done|split;
    [done|]]]]]].
  - destruct err as [e|]; [|done]. intros _.
    by eapply decoderDecode_error.
  - destruct Hm as (_ & _ & _ & Hd). apply Hd. by eexists.
  - pose proof (decoderDecode_value b obj w1 v0 Hv1 Hsep1) as Hval.
    destruct (decodeInto b v0) as [e|v].
    + rewrite Hdec in Hval. by injection Hval as -> _.
    + destruct Hval as (w' & Heq & Hv'). rewrite Hdec in Heq.
      by injection Heq as -> ->.
Qed.
Lemma decodedFrom_weaken v0 h h' o chunk :
  h ⊆ h' → decodedFrom v0 h o chunk → decodedFrom v0 h' o chunk.
Proof.
  intros Hs (b & v & ? & ? & Hv). exists b, v.
  split; [done|]. split; [done|]. by eapply obj_value_weaken.
Qed.

Lemma DecodeObjects_loop_isolated (manifest done_ : Stream) (base : loc)
    patches (objects : list loc) s h0 v0 :
  Forall confined patches →
  obj_value (heap (world s)) base = Some v0 →
  isolated h0 (heap (world s)) objects →
  ∃ objs err s',
    DecodeObjects_loop manifest base patches objects s = ((objs, err), s')
    ∧ heap (world s) ⊆ heap (world s')
    ∧ isolated h0 (heap (world s')) objs
    ∧ calls s' = calls s
    ∧ (patches = [] → err = None →
       Forall2 (decodedFrom v0 (heap (world s))) objects done_ →
       Forall2 (decodedFrom v0 (heap (world s'))) objs (done_ ++ manifest)).
Proof.
  intros Hc. revert done_ objects s.
  induction manifest as [|chunk manifest IH]; intros done_ objects s Hv Hiso.
  - destruct (DeepCopyObject_spec _ _ _ Hv)
      as (obj & w1 & Hcopy & _ & Hs1 & _).
    exists objects, None, (mkStore w1 (calls s)). simpl.
    unfold bind, lift, ret. rewrite Hcopy. simpl.
    split; [done|]. split; [done|].
    split; [by eapply isolated_weaken|]. split; [done|].
    intros _ _ Hd. rewrite app_nil_r.
    eapply Forall2_impl; [exact Hd|].
    intros o c. by apply decodedFrom_weaken.
  - destruct chunk as [b|e].
    + destruct (copy_decode_patch base b patches (world s) v0 Hv Hc)
        as (obj & w1 & err & w2 & w3 & Hcopy & Hdec & Hp & Hs1 & Herr
            & Hs3 & Hv3 & Hf3 & _ & _ & Hval).
      simpl. unfold bind, lift, ret. rewrite Hcopy. simpl. rewrite Hdec.
      simpl. destruct err as [e|].
      * rewrite (Herr ltac:(done)).
        exists [], (Some e), (mkStore w1 (calls s)). simpl.
        split; [done|]. split; [done|].
        split; [|done]. apply isolated_nil.
        etrans; [by eapply isolated_frame|done].
      * simpl. rewrite Hp. simpl.
        destruct (IH (done_ ++ [Doc b]) (objects ++ [obj])
                     (mkStore w3 (calls s)))
          as (objs & err & s' & Heq & Hs' & Hiso' & Hcalls & Hvals).
        { simpl. by eapply obj_value_weaken. }
        { simpl. by eapply isolated_snoc. }
        exists objs, err, s'. simpl in *.
        split; [done|]. split; [by etrans|]. split; [done|].
        split; [done|]. intros -> Hnone Hd.
        rewrite <- (assoc_L (++)) in Hvals. simpl in Hvals.
        apply Hvals; [done..|]. simpl in Hp. injection Hp as <-.
        apply Forall2_app.
        -- eapply Forall2_impl; [exact Hd|].
           intros o c. by apply decodedFrom_weaken.
        -- constructor; [|constructor].
           destruct (decodeInto b v0) as [e|v] eqn:Hdi; [done|].
           destruct Hval as [_ Hval]. by exists b, v.
    + destruct (DeepCopyObject_spec _ _ _ Hv)
        as (obj & w1 & Hcopy & _ & Hs1 & _).
      exists [], (Some e), (mkStore w1 (calls s)). simpl.
      unfold bind, lift, ret. rewrite Hcopy. simpl.
      split; [done|]. split; [done|]. split; [|done].
      apply isolated_nil. etrans; [by eapply isolated_frame|done].
Qed.
Lemma DecodeDocuments_isolated (manifest done_ : Stream) (base : loc)
    (fn : loc → Ext W unit) patches (acc : list loc) s h0 v0 :
  Forall confined patches → confined fn →
  obj_value (heap (world s)) base = Some v0 →
  isolated h0 (heap (world s)) acc →
  ∃ err s' objects,
    DecodeDocuments manifest base fn patches s = (err, s')
    ∧ calls s' = calls s ++ fnCalls objects
    ∧ heap (world s) ⊆ heap (world s')
    ∧ isolated h0 (heap (world s')) (acc ++ objects)
    ∧ (patches = [] → (∀ o w, heap (fn o w).2 = heap w) → err = None →
       Forall2 (decodedFrom v0 (heap (world s))) acc done_ →
       Forall2 (decodedFrom v0 (heap (world s'))) (acc ++ objects)
               (done_ ++ manifest)).
Proof.
  intros Hc Hfn. revert done_ acc s.
  induction manifest as [|chunk manifest IH]; intros done_ acc s Hv Hiso.
  - destruct (DeepCopyObject_spec _ _ _ Hv)
      as (obj & w1 & Hcopy & _ & Hs1 & _).
    exists None, (mkStore w1 (calls s)), []. simpl.
    unfold bind, lift, ret. rewrite Hcopy. simpl. rewrite !app_nil_r.
    split; [done|]. split; [done|]. split; [done|].
    split; [by eapply isolated_weaken|].
    intros _ _ _ Hd. eapply Forall2_impl; [exact Hd|].
    intros o c. by apply decodedFrom_weaken.
  - destruct chunk as [b|e].
    + destruct (copy_decode_patch base b patches (world s) v0 Hv Hc)
        as (obj & w1 & err & w2 & w3 & Hcopy & Hdec & Hp & Hs1 & Herr
            & Hs3 & Hv3 & Hf3 & Hf1 & Hm & Hval).
      simpl. unfold bind, lift, ret, emit. rewrite Hcopy. simpl.
      rewrite Hdec. simpl. destruct err as [e|].
      * rewrite (Herr ltac:(done)).
        exists (Some e), (mkStore w1 (calls s)), []. simpl.
        rewrite !app_nil_r. split; [done|]. split; [done|].
        split; [done|]. split; [by eapply isolated_weaken|done].
      * simpl. rewrite Hp. simpl.
        pose proof (Hfn obj w3) as Hm4.
        destruct (fn obj w3) as [[] w4] eqn:Hfnrun. simpl in *.
        assert (Hm14 : modifies obj w1 w4) by by eapply modifies_trans.
        destruct (modifies_new _ _ _ _ Hs1 Hf1 Hm14) as [Hs4 Hf4].
        assert (Hv4 : is_Some (obj_value (heap w4) obj)).
        { destruct Hm4 as (_ & _ & _ & Hd). by apply Hd. }
        destruct (IH (done_ ++ [Doc b]) (acc ++ [obj])
                     (mkStore w4 (calls s ++ [EvHandler (Some obj) None])))
          as (err & s' & objects & Heq & Hcalls & Hs' & Hiso' & Hvals).
        { simpl. by eapply obj_value_weaken. }
        { simpl. by eapply isolated_snoc. }
        exists err, s', (obj :: objects). simpl in *.
        split; [done|]. rewrite Hcalls, <- !(assoc_L (++)). simpl.
        split; [done|]. split; [by etrans|].
        rewrite <- (assoc_L (++)) in Hiso', Hvals. simpl in Hiso', Hvals.
        split; [done|]. intros -> Hpure Hnone Hd.
        rewrite <- (assoc_L (++)) in Hvals. simpl in Hvals.
        apply Hvals; [done..|]. simpl in Hp. injection Hp as <-.
        apply Forall2_app.
        -- eapply Forall2_impl; [exact Hd|].
           intros o c. by apply decodedFrom_weaken.
        -- constructor; [|constructor].
           destruct (decodeInto b v0) as [e|v] eqn:Hdi; [done|].
           destruct Hval as [_ Hval]. exists b, v.
           split; [done|]. split; [done|].
           specialize (Hpure obj w2). rewrite Hfnrun in Hpure. simpl in Hpure.
           by rewrite Hpure.
    + destruct (DeepCopyObject_spec _ _ _ Hv)
        as (obj & w1 & Hcopy & _ & Hs1 & _).
      exists (Some e), (mkStore w1 (calls s)), []. simpl.
      unfold bind, lift, ret. rewrite Hcopy. simpl. rewrite !app_nil_r.
      split; [done|]. split; [done|]. split; [done|].
      split; [by eapply isolated_weaken|done].
Qed.

(** C8. Decoding a stream into copies of a base object, with patches
    (and a callback) that work on the object they are given: every
    cell the heap had, the base object among them, is as it was; the
    decoded objects are distinct objects made of new cells, no two of
    them share a cell, so what a further patch does to one of them is
    seen neither in another nor in the base; and without patches (and
    with a callback that leaves the heap alone) each object holds what
    its document decodes to from a copy of the value the base had on
    entry. *)
Theorem decode_copies_are_isolated (manifest : Stream) (obj : loc)
    (fn : loc → Ext W unit) patches s (v0 : ObjValue) :
  obj_value (heap (world s)) obj = Some v0 →
  Forall confined patches → confined fn →
  (∃ objects err s',
     DecodeObjects manifest obj patches s = ((objects, err), s')
     ∧ obj_value (heap (world s')) obj = Some v0
     ∧ isolated (heap (world s)) (heap (world s')) objects
     ∧ (∀ (patch : MutateFunc W) o o',
          confined patch → o ∈ objects →
          (o' ∈ objects ∧ o' ≠ o) ∨ o' = obj →
          obj_value (heap (patch o (world s')).2) o'
          = obj_value (heap (world s')) o')
     ∧ (patches = [] → err = None →
        Forall2 (decodedFrom v0 (heap (world s'))) objects manifest))
  ∧ (∃ objects err s',
       DecodeDocuments manifest obj fn patches s = (err, s')
       ∧ calls s' = calls s ++ fnCalls objects
       ∧ obj_value (heap (world s')) obj = Some v0
       ∧ isolated (heap (world s)) (heap (world s')) objects
       ∧ (∀ (patch : MutateFunc W) o o',
            confined patch → o ∈ objects →
            (o' ∈ objects ∧ o' ≠ o) ∨ o' = obj →
            obj_value (heap (patch o (world s')).2) o'
            = obj_value (heap (world s')) o')
       ∧ (patches = [] → (∀ o w, heap (fn o w).2 = heap w) →
          err = None →
          Forall2 (decodedFrom v0 (heap (world s'))) objects manifest)).
Proof.
  intros Hv Hc Hfn. split.
  - destruct (DeepCopyObject_spec _ _ _ Hv)
      as (base & w1 & Hcopy & Hv1 & Hs1 & _).
    destruct (DecodeObjects_loop_isolated manifest [] base patches []
                (mkStore w1 (calls s)) (heap (world s)) v0 Hc Hv1)
      as (objects & err & s' & Heq & Hs' & Hiso & _ & Hvals).
    { by apply isolated_nil. }
    exists objects, err, s'. simpl in *.
    split; [by unfold DecodeObjects, bind, lift; rewrite Hcopy|].
    split; [eapply obj_value_weaken; [|exact Hv]; by etrans|].
    split; [done|]. split.
    + intros patch o o' Hp Ho Ho'.
      eapply (isolated_mutation _ _ _ patch); [exact Hiso|done..|].
      destruct Ho' as [?|Heq']; [by left|subst o'; right; by eexists].
    + intros Hnil Hnone. apply Hvals; [done..|constructor].
  - destruct (DecodeDocuments_isolated manifest [] obj fn patches [] s
                (heap (world s)) v0 Hc Hfn Hv)
      as (err & s' & objects & Heq & Hcalls & Hs' & Hiso & Hvals).
    { by apply isolated_nil. }
    exists objects, err, s'. simpl in *.
    split; [done|]. split; [done|].
    split; [by eapply obj_value_weaken|]. split; [done|]. split.
    + intros patch o o' Hp Ho Ho'.
      eapply (isolated_mutation _ _ _ patch); [exact Hiso|done..|].
      destruct Ho' as [?|Heq']; [by left|subst o'; right; by eexists].
    + intros Hnil Hpure Hnone. apply Hvals; [done..|constructor].
Qed.
End IsolationFacts.

(** ** Errors of the collect variants *)

Section CollectErrors.
Context {W : Type} `{!Codec} `{!PathLib}.

(** [DecodeObjects] on documents that decode into a copy of the base:
    one object each, and the loop goes on with what follows them. *)
Lemma DecodeObjects_loop_prefix (good : list string) (tail : Stream)
    (base : loc) (patches : list (MutateFunc W)) (objects : list loc)
    s v0 :
  Forall confined patches →
  obj_value (heap (world s)) base = Some v0 →
  Forall (λ b, intoError v0 (Doc b) = None) good →
  ∃ objs s',
    DecodeObjects_loop ((Doc <$> good) ++ tail) base patches objects s
    = DecodeObjects_loop tail base patches (objects ++ objs) s'
    ∧ length objs = length good
    ∧ obj_value (heap (world s')) base = Some v0.
Proof.
  intros Hc Hv Hgood. revert objects s Hv.
  induction Hgood as [|b good Hb _ IH]; intros objects s Hv.
  - exists [], s. by rewrite app_nil_r.
  - destruct (copy_decode_patch base b patches (world s) v0 Hv Hc)
      as (obj & w1 & err & w2 & w3 & Hcopy & Hdec & Hp & Hs1 & Herr
          & Hs3 & Hv3 & Hf3 & _ & _ & Hval).
    simpl in Hb. destruct (decodeInto b v0) as [e|v]; [done|].
    destruct Hval as [-> _].
    destruct (IH (objects ++ [obj]) (mkStore w3 (calls s)))
      as (objs & s' & Heq & Hlen & Hv').
    { simpl. by eapply obj_value_weaken. }
    exists (obj :: objs), s'. split; [|split; [simpl; by rewrite Hlen|done]].
    replace (objects ++ obj :: objs) with ((objects ++ [obj]) ++ objs)
      by (by rewrite <- (assoc_L (++))).
    rewrite <- Heq. simpl.
    unfold bind, lift, ret. rewrite Hcopy. simpl. rewrite Hdec. simpl.
    by rewrite Hp.
Qed.

Lemma DecodeObjects_loop_stop (bad : Chunk) (rest : Stream) (e : error)
    (base : loc) (patches : list (MutateFunc W)) (objects : list loc)
    s v0 :
  Forall confined patches →
  obj_value (heap (world s)) base = Some v0 →
  intoError v0 bad = Some e →
  (DecodeObjects_loop (bad :: rest) base patches objects s).1
  = ([], Some e).
Proof.
  intros Hc Hv Hbad. destruct bad as [b|e']; simpl in Hbad.
  - destruct (copy_decode_patch base b patches (world s) v0 Hv Hc)
      as (obj & w1 & err & w2 & w3 & Hcopy & Hdec & _ & _ & _
          & _ & _ & _ & _ & _ & Hval).
    destruct (decodeInto b v0) as [e'|v]; [|done].
    injection Hbad as ->. subst err.
    simpl. unfold bind, lift, ret. rewrite Hcopy. simpl. by rewrite Hdec.
  - injection Hbad as ->. simpl. unfold bind, lift, ret.
    by destruct (DeepCopyObject base (world s)).
Qed.

Lemma DecodeObjects_loop_end (base : loc) (patches : list (MutateFunc W))
    (objects : list loc) s :
  (DecodeObjects_loop [] base patches objects s).1 = (objects, None).
Proof.
  simpl. unfold bind, lift, ret.
  by destruct (DeepCopyObject base (world s)).
Qed.

(** C3, as the code has it. When the chunk after [K] documents that
    decode is a document that does not decode (or a read error), the
    collect variants return no object at all together with the error
    of that chunk: [DecodeAll] on the stream, [DecodeAllFiles] on a
    directory in which the stream is a file that comes after files
    that decode (the objects of those files are dropped as well; a
    file that does not open gives its error and no object), and
    [DecodeObjects] on a stream of documents that decode into a copy
    of the base up to that chunk.  At a clean end they return one
    object per document and no error.  In any case an error comes
    with no object. *)
Theorem collect_returns_nothing_on_error (good : list string)
    (bad : Chunk) (rest : Stream) (e : error) defaults
    (patches : list (MutateFunc W)) (s : Store W) :
  Forall (λ b, decodeError b defaults = None) good →
  chunkError defaults bad = Some e →
  (DecodeAll ((Doc <$> good) ++ bad :: rest) defaults patches s).1
  = ([], Some e)
  ∧ (DecodeAll (Doc <$> good) defaults patches s).1.2 = None
  ∧ length (DecodeAll (Doc <$> good) defaults patches s).1.1 = length good
  ∧ (∀ fs path files file files' docss,
       listResourceFiles fs path = (files ++ file :: files', None) →
       holds fs files docss →
       Forall (Forall (λ b, decodeError b defaults = None)) docss →
       (Open fs file = inr ((Doc <$> good) ++ bad :: rest) →
        (DecodeAllFiles fs path defaults patches s).1 = ([], Some e))
       ∧ (∀ e', Open fs file = inl e' →
                (DecodeAllFiles fs path defaults patches s).1
                = ([], Some e')))
  ∧ (∀ fs path files docss,
       listResourceFiles fs path = (files, None) →
       holds fs files docss →
       Forall (Forall (λ b, decodeError b defaults = None)) docss →
       (DecodeAllFiles fs path defaults patches s).1.2 = None
       ∧ length (DecodeAllFiles fs path defaults patches s).1.1
         = length (concat docss))
  ∧ (∀ obj v0 good' bad' rest' e',
       obj_value (heap (world s)) obj = Some v0 →
       Forall confined patches →
       Forall (λ b, intoError v0 (Doc b) = None) good' →
       intoError v0 bad' = Some e' →
       (DecodeObjects ((Doc <$> good') ++ bad' :: rest') obj patches s).1
       = ([], Some e')
       ∧ (DecodeObjects (Doc <$> good') obj patches s).1.2 = None
       ∧ length (DecodeObjects (Doc <$> good') obj patches s).1.1
         = length good')
  ∧ (∀ fs path,
       (DecodeAllFiles fs path defaults patches s).1.2 ≠ None →
       (DecodeAllFiles fs path defaults patches s).1.1 = [])
  ∧ (∀ manifest obj,
       ((DecodeObjects manifest obj patches s).1.2 ≠ None →
        (DecodeObjects manifest obj patches s).1.1 = [])
       ∧ ((DecodeObjects manifest obj patches s).1.2 = None →
          length (DecodeObjects manifest obj patches s).1.1
          = length manifest)).
Proof.
  intros Hok Hbad.
  split; [by apply (DecodeAll_loop_fail)|].
  split; [|split; [|split; [|split; [|split; [|split]]]]].
  - unfold DecodeAll. rewrite (DecodeAll_loop_ok) by done.
    by destruct (mapM _ good s).
  - unfold DecodeAll. rewrite (DecodeAll_loop_ok) by done.
    pose proof (mapM_length (λ b, DecodeAny (inr b) defaults patches)
                            good s) as Hl.
    destruct (mapM _ good s) as [rs s']. simpl in *.
    by rewrite length_fmap.
  - intros fs path files file files' docss Hfiles Hopen Hdocs.
    unfold DecodeAllFiles. rewrite Hfiles.
    rewrite (DecodeAllFiles_loop_app _ _ docss) by done.
    destruct (mapM _ (concat docss) s) as [rs s1]. simpl.
    split.
    + intros ->. unfold bind, DecodeAll.
      pose proof (DecodeAll_loop_fail good bad rest e defaults patches []
                    s1 Hok Hbad) as Hfail.
      destruct (DecodeAll_loop _ _ _ _ s1) as [[o err] s2]. simpl in *.
      by injection Hfail as -> ->.
    + by intros e' ->.
  - intros fs path files docss Hfiles Hopen Hdocs.
    unfold DecodeAllFiles. rewrite Hfiles.
    rewrite (DecodeAllFiles_loop_ok _ _ docss) by done.
    pose proof (mapM_length (λ b, DecodeAny (inr b) defaults patches)
                            (concat docss) s) as Hl.
    destruct (mapM _ (concat docss) s) as [rs s']. simpl in *.
    by rewrite length_fmap.
  - intros obj v0 good' bad' rest' e' Hv Hc Hgood' Hbad'.
    unfold DecodeObjects, bind, lift.
    destruct (DeepCopyObject_spec _ _ _ Hv)
      as (base & w1 & Hcopy & Hv1 & _).
    rewrite Hcopy.
    destruct (DecodeObjects_loop_prefix good' (bad' :: rest') base patches
                [] (mkStore w1 (calls s)) v0 Hc Hv1 Hgood')
      as (objs & s' & -> & _ & Hv').
    split; [by apply (DecodeObjects_loop_stop _ _ _ _ _ _ _ v0)|].
    destruct (DecodeObjects_loop_prefix good' [] base patches
                [] (mkStore w1 (calls s)) v0 Hc Hv1 Hgood')
      as (objs' & s'' & Heq & Hlen & _).
    rewrite app_nil_r in Heq. rewrite Heq, DecodeObjects_loop_end.
    by split.
  - intros fs path. unfold DecodeAllFiles.
    destruct (listResourceFiles fs path) as [files [e'|]]; [done|].
    apply DecodeAllFiles_loop_error.
  - intros manifest obj. unfold DecodeObjects, bind, lift.
    destruct (DeepCopyObject obj (world s)) as [base w1].
    split.
    + apply (DecodeObjects_loop_error).
    + intros Hn. by rewrite (DecodeObjects_loop_length).
Qed.
End CollectErrors.

(** ** The annotation patch *)

Section AnnotationFacts.
Context {W : Type}.

(** C5 (what the code does where the claim fails). On an object that
    has no annotation map, [MutateAnnotations] leaves the annotations
    nil: the map it creates is stored as the label map of the object,
    so the labels the object had are gone and its labels are the
    overrides. *)
Theorem MutateAnnotations_nil_sets_labels
    (overrides : gmap string string) (obj : loc) (w : World W)
    (v : ObjValue) :
  obj_value (heap w) obj = Some v →
  vAnnotations (vMeta v) = None →
  obj_value (heap (MutateAnnotations overrides obj w).2) obj
  = Some {| vMeta := {| vName := vName (vMeta v);
                        vNamespace := vNamespace (vMeta v);
                        vLabels := Some overrides;
                        vAnnotations := None |};
            vContent := vContent v |}.
Proof.
  intros Hv Hnil.
  destruct (obj_value_inv _ _ _ Hv) as (meta & E & Hn & Hns & Hl & Ha).
  rewrite Hnil in Ha. apply readMap_None_inv in Ha.
  rewrite MutateAnnotations_run, E. simpl. rewrite Ha. simpl.
  unfold obj_value.
  pose proof (fresh_lookup (heap w)) as Hf.
  assert (fresh (dom (heap w)) ≠ obj) by congruence.
  rewrite lookup_insert_ne, lookup_insert_eq by done. simpl.
  rewrite lookup_insert_eq. by rewrite Hn, Hns.
Qed.
End AnnotationFacts.

(** ** The properties on the test data *)

Section OnTestdata.
Import Testdata.


(** The order of enumeration does not show in the result. *)
Example listResourceFiles_testdata :
  listResourceFiles fs "testdata"
  = (["testdata/a.yaml"; "testdata/b.yml"; "testdata/c.json"], None)
  ∧ listResourceFiles fs' "testdata" = listResourceFiles fs "testdata"
  ∧ listResourceFiles fs "testdata/b" = (["testdata/b.yml"], None).
Proof. by vm_compute. Qed.

Lemma DecodeAny_unregistered_fallback_witness :
  (∀ patches (s : Store unit),
     DecodeAny (inr "crd") None patches s
     = (obj <- lift (newObject (unstructuredValue crd)) ;;
        lift (rangePatches patches obj) ;;
        ret (Some obj, None)) s)
  ∧ crd !! "spec" = Some (JObject [("example", JString "value")]).
Proof.
  split; [|reflexivity].
  apply (DecodeAny_unregistered_fallback (W:=unit) "crd" None crd);
    reflexivity.
Defined.

Lemma DecodeAny_nil_object_nil_error_witness :
  DecodeAny (inr "list") None [] emptyStore = ((None, None), emptyStore).
Proof.
  apply (DecodeAny_nil_object_nil_error "list" None [] emptyStore
           configMapList ∅).
  reflexivity.
Defined.

Lemma MutateAnnotations_nil_sets_labels_witness :
  labelList webWorld webObj = Some (Some [("app", "web")])
  ∧ obj_value (heap (MutateAnnotations {[ "note" := "x" ]} webObj webWorld).2)
              webObj
    = Some {| vMeta := {| vName := "web"; vNamespace := "";
                          vLabels := Some {[ "note" := "x" ]};
                          vAnnotations := None |};
              vContent := Typed configMap ∅ |}.
Proof.
  split; [by vm_compute|].
  apply (MutateAnnotations_nil_sets_labels {[ "note" := "x" ]} webObj
           webWorld web); by vm_compute.
Defined.
(** C1 (the code at a failing input). With a handler that fails on
    every object, [DecodeEach] on a stream of two documents calls the
    handler for both and returns no error, and [DecodeEachFile] on the
    test directory calls it for all four documents and returns no
    error. *)
Theorem DecodeEach_ignores_handler_error :
  (let '(err, s) := DecodeEach tt [Doc "a"; Doc "b"] None
                               failingHandler [] emptyStore in
   (err, calls s))
  = (None, [EvHandler (Some 1%positive) (Some boom);
            EvHandler (Some 2%positive) (Some boom)])
  ∧ (let '(err, s) := DecodeEachFile fs tt "testdata" None
                                     failingHandler [] emptyStore in
     (err, length (calls s)))
    = (None, 4).
Proof. by vm_compute. Qed.

(** C2 (the code at a failing input). With a patch that fails followed
    by the label patch, [DecodeAny] returns the object and no error,
    and the label patch has been applied; [DecodeAll] goes on to the
    second document and [DecodeObjects] does as well; [Decode] returns
    no error either, with the label patch applied. *)
Theorem decode_ignores_patch_error :
  (let '(r, s) := DecodeAny (inr "a") None
                            [failingPatch; MutateLabels injected]
                            emptyStore in
   (r, labelList (world s) 1%positive))
  = ((Some 1%positive, None), Some (Some [("injected", "labelvalue")]))
  ∧ (DecodeAll [Doc "a"; Doc "b"] None
               [failingPatch; MutateLabels injected] emptyStore).1
    = ([Some 1%positive; Some 3%positive], None)
  ∧ (let '(r, s) := DecodeObjects [Doc "a"; Doc "b"] webObj
                                  [failingPatch] webStore in
     (r.2, length r.1))
    = (None, 2)
  ∧ (let '(err, s) := Decode [Doc "a"] webObj
                             [failingPatch; MutateLabels injected]
                             webStore in
     (err, labelList (world s) webObj))
    = (None, Some (Some [("injected", "labelvalue"); ("app", "web")])).
Proof. by vm_compute. Qed.

(** C3, the claim at a stream whose second document does not decode:
    the first document decodes, and yet the object decoded from it is
    not returned with the error. *)
Lemma DecodeAll_partial_results_counterexample :
  (DecodeAny (inr "a") None [] emptyStore).1 = (Some 1%positive, None)
  ∧ ¬ ∃ obj e,
        (DecodeAll [Doc "a"; Doc "bad"] None [] emptyStore).1
        = ([obj], Some e).
Proof.
  split; [by vm_compute|]. intros (obj & e & Heq).
  vm_compute in Heq. discriminate.
Qed.

Lemma collect_returns_nothing_on_error_witness :
  (DecodeAll [Doc "b1"; Doc "bad"; Doc "b3"] None [] webStore).1
  = ([], Some (ErrOther "yaml: bad document"))
  ∧ (DecodeAll [Doc "b1"] None [] webStore).1.2 = None
  ∧ length (DecodeAll [Doc "b1"] None [] webStore).1.1 = 1
  ∧ (DecodeAllFiles Brokendata.brokenfs "broken" None [] webStore).1
    = ([], Some (ErrOther "yaml: bad document"))
  ∧ (DecodeObjects [Doc "a"; Doc "bad"; Doc "c"] webObj [] webStore).1
    = ([], Some (ErrOther "yaml: bad document"))
  ∧ (DecodeObjects [Doc "a"] webObj [] webStore).1.2 = None
  ∧ length (DecodeObjects [Doc "a"] webObj [] webStore).1.1 = 1.
Proof.
  destruct (collect_returns_nothing_on_error ["b1"] (Doc "bad")
              [Doc "b3"] (ErrOther "yaml: bad document") None []
              webStore) as (H1 & H2 & H3 & Hfiles & _ & Hobjects & _).
  - by repeat constructor.
  - reflexivity.
  - destruct (Hfiles Brokendata.brokenfs "broken" ["broken/a.yaml"]
                "broken/b.yaml" ["broken/c.yaml"] [["a1"; "a2"]])
      as [H4 _].
    { by vm_compute. }
    { by repeat constructor. }
    { by repeat constructor. }
    destruct (Hobjects webObj web ["a"] (Doc "bad") [Doc "c"]
                (ErrOther "yaml: bad document")) as (H5 & H6 & H7).
    { by vm_compute. }
    { constructor. }
    { by repeat constructor. }
    { reflexivity. }
    split; [exact H1|]. split; [exact H2|]. split; [exact H3|].
    split; [by apply H4|]. split; [exact H5|]. split; [exact H6|exact H7].
Defined.

Lemma directory_decode_order_witness :
  (let r := DecodeAllFiles fs "testdata" None [] Orderdata.recordStore in
   length r.1.1 = 4
   ∧ r.1.2 = None
   ∧ names r.2 r.1.1 = [Some "a"; Some "b1"; Some "b2"; Some "c"])
  ∧ ext (world (DecodeEachFile fs tt "testdata" None Orderdata.nameRecorder
                               [] Orderdata.recordStore).2)
    = [Some "a"; Some "b1"; Some "b2"; Some "c"]
  ∧ (listResourceFiles Orderdata.mixed "mixed").1
    = ["mixed/a.json"; "mixed/b.yaml"; "mixed/c.yml"]
  ∧ (let r := DecodeAllFiles Orderdata.mixed "mixed" None []
                             Orderdata.recordStore in
     names r.2 r.1.1 = [Some "a"; Some "b1"; Some "b2"; Some "c"])
  ∧ (let s' := (DecodeEachFile Orderdata.mixed tt "mixed" None
                               Orderdata.nameRecorder []
                               Orderdata.recordStore).2 in
     ext (world s') = [Some "a"; Some "b1"; Some "b2"; Some "c"]
     ∧ s' = handleFiles tt [["a"]; ["b1"; "b2"]; ["c"]] None
                        Orderdata.nameRecorder [] Orderdata.recordStore
     ∧ ∃ evs, calls s' = evs ∧ length evs = 4).
Proof.
  destruct (directory_decode_order fs tt "testdata"
              ["testdata/a.yaml"; "testdata/b.yml"; "testdata/c.json"]
              [["a"]; ["b1"; "b2"]; ["c"]]
              None Orderdata.nameRecorder [] Orderdata.recordStore)
    as (_ & _ & Hlen & _).
  - by vm_compute.
  - by repeat constructor.
  - by repeat constructor.
  - destruct (directory_decode_order Orderdata.mixed tt "mixed"
                ["mixed/a.json"; "mixed/b.yaml"; "mixed/c.yml"]
                [["a"]; ["b1"; "b2"]; ["c"]]
                None Orderdata.nameRecorder [] Orderdata.recordStore)
      as (_ & _ & _ & Hhandle & _ & evs & Hcalls & _ & Hevs).
    + by vm_compute.
    + by repeat constructor.
    + by repeat constructor.
    + cbv zeta. split; [split; [exact Hlen|split; by vm_compute]|].
      split; [by vm_compute|]. split; [by vm_compute|].
      split; [by vm_compute|]. split; [by vm_compute|].
      split; [rewrite Hhandle; reflexivity|].
      exists evs. split; [exact Hcalls|exact Hevs].
Defined.


Lemma decode_copies_are_isolated_witness :
  ∃ objects s',
    DecodeObjects multidoc webObj [MutateLabels injected] webStore
    = ((objects, None), s')
    ∧ obj_value (heap (world s')) webObj = Some web
    ∧ isolated (heap webWorld) (heap (world s')) objects
    ∧ length objects = 2.
Proof.
  destruct (decode_copies_are_isolated multidoc webObj ignore
              [MutateLabels injected] webStore web)
    as [(objects & err & s' & Heq & Hbase & Hiso & _) _].
  - by vm_compute.
  - constructor; [apply MutateLabels_confined|constructor].
  - intros obj w. apply modifies_refl.
  - exists objects, s'.
    assert (err = None ∧ length objects = 2) as [-> Hlen].
    { apply (f_equal fst) in Heq. vm_compute in Heq.
      by injection Heq as <- <-. }
    auto.
Defined.

(** The handler of [DeleteIgnoreNotFound] on a client that records
    its calls: one call, of [Create]; the wrapped delete handler would
    have called [Delete]. *)
Example DeleteIgnoreNotFound_recorded :
  DeleteIgnoreNotFound recorder [] tt (Some 1%positive) (mkWorld ∅ [])
  = (None, mkWorld ∅ ["create"])
  ∧ IgnoreErrorHandler (DeleteHandler recorder []) IsNotFound
      tt (Some 1%positive) (mkWorld ∅ [])
    = (None, mkWorld ∅ ["delete"]).
Proof. by vm_compute. Qed.

(** The test of the package on multi-document input: both objects
    carry the injected label, and the base is as it was. *)
Example DecodeObjects_testdata :
  let '(r, s) := DecodeObjects multidoc webObj [MutateLabels injected]
                               webStore in
  r.2 = None
  ∧ names s (Some <$> r.1) = [Some "b1"; Some "b2"]
  ∧ (λ o, labelList (world s) o) <$> r.1
    = [Some (Some [("injected", "labelvalue"); ("app", "web")]);
       Some (Some [("injected", "labelvalue"); ("app", "web")])]
  ∧ labelList (world s) webObj = Some (Some [("app", "web")]).
Proof. by vm_compute. Qed.
End OnTestdata.

(** * Further properties of the package *)

(** ** The file resolver: what is refused and what is empty *)

Section ResolverEdges.
Context `{!PathLib}.

Lemma elem_of_glob_candidate fs dir base ext p :
  ext ∈ extensions → p ∈ glob fs dir base ext →
  ∃ n, n ∈ Readdirnames fs dir ∧ candidate base n.
Proof.
  intros Hext. unfold glob.
  destruct (Stat fs dir) as [|fi]; [by intros ?%elem_of_nil|].
  destruct (IsDir fi); [|by intros ?%elem_of_nil].
  intros (n & -> & [Hm Hn]%list_elem_of_filter)%list_elem_of_fmap.
  rewrite sortStrings_elem_of in Hn. exists n. split; [done|].
  apply matchStar_spec in Hm as [mid ->]. by exists mid, ext.
Qed.

Lemma sortStrings_nil_inv (l : list string) : l = [] → sortStrings l = [].
Proof. by intros ->. Qed.

(** X1. A directory (or a directory and a prefix) in which no entry has
    the prefix and a recognised extension resolves to the empty list of
    files, without an error. *)
Theorem listResourceFiles_no_match (fs : FileSystem)
    (path dir base : string) :
  resolvesTo fs path dir base →
  hasMeta dir = false → hasMeta base = false →
  (∀ n, n ∈ Readdirnames fs dir → ¬ candidate base n) →
  listResourceFiles fs path = ([], None).
Proof.
  intros Hr Hm1 Hm2 Hnone.
  rewrite (listResourceFiles_resolved _ _ _ _ Hr Hm1 Hm2).
  f_equal. apply sortStrings_nil_inv.
  assert (Hempty : ∀ ext, ext ∈ extensions → glob fs dir base ext = []).
  { intros ext Hext. apply elem_of_nil_inv. intros p Hp.
    destruct (elem_of_glob_candidate _ _ _ _ _ Hext Hp) as (n & Hn & Hc).
    by apply (Hnone n). }
  rewrite !Hempty; [done|unfold extensions; set_solver..].
Qed.

(** X2. For a path without pattern characters, [listResourceFiles]
    returns an error exactly when the path is neither a directory nor a
    missing path whose parent is a directory; with an error it returns
    no file. *)
Theorem listResourceFiles_error_iff (fs : FileSystem) (path : string) :
  (∀ dir base, resolvesTo fs path dir base →
               hasMeta dir = false ∧ hasMeta base = false) →
  ((listResourceFiles fs path).2 ≠ None ↔
   ¬ ∃ dir base, resolvesTo fs path dir base)
  ∧ ((listResourceFiles fs path).2 ≠ None →
     (listResourceFiles fs path).1 = []).
Proof.
  intros Hlit.
  destruct (Stat fs path) as [e|fi] eqn:Hs.
  - destruct (isDirectory fs (Dir path)) eqn:Hd.
    + pose proof (resolves_prefix fs path e Hs Hd) as Hr.
      destruct (Hlit _ _ Hr) as [Hm1 Hm2].
      rewrite (listResourceFiles_resolved _ _ _ _ Hr Hm1 Hm2). simpl.
      split; [|done]. split; [done|]. intros Hn. destruct Hn. eauto.
    + unfold listResourceFiles. rewrite Hs, Hd. simpl.
      split; [|done]. split; [|done]. intros _ (dir & base & Hr).
      destruct Hr as [fi Hs' _|e' _ Hd']; congruence.
  - destruct (IsDir fi) eqn:Hd.
    + pose proof (resolves_directory fs path fi Hs Hd) as Hr.
      destruct (Hlit _ _ Hr) as [Hm1 Hm2].
      rewrite (listResourceFiles_resolved _ _ _ _ Hr Hm1 Hm2). simpl.
      split; [|done]. split; [done|]. intros Hn. destruct Hn. eauto.
    + unfold listResourceFiles. rewrite Hs, Hd. simpl.
      split; [|done]. split; [|done]. intros _ (dir & base & Hr).
      destruct Hr as [fi' Hs' Hd'|e' Hs' _]; congruence.
Qed.
End ResolverEdges.


(** ** The prefix narrows the files of the directory *)

Section ResolverPrefix.
Context `{!PathLib}.

Lemma string_app_assoc (s1 s2 s3 : string) :
  s1 +:+ s2 +:+ s3 = (s1 +:+ s2) +:+ s3.
Proof.
  induction s1 as [|c s1 IH]; [done|]. exact (f_equal (String c) IH).
Qed.

Lemma matchStar_no_prefix (base ext name : string) :
  matchStar base ext name = true → matchStar EmptyString ext name = true.
Proof.
  rewrite !matchStar_spec. intros [mid ->]. exists (base +:+ mid).
  apply string_app_assoc.
Qed.

(** X3. For a directory and a file-name prefix without pattern
    characters, the prefix only narrows: every file resolved for the
    directory and the prefix is among the files resolved for the
    directory itself. *)
Theorem listResourceFiles_prefix_narrows (fs : FileSystem)
    (path dir base : string) (p : string) :
  resolvesTo fs path dir base →
  hasMeta dir = false → hasMeta base = false →
  p ∈ (listResourceFiles fs path).1 → p ∈ (listResourceFiles fs dir).1.
Proof.
  intros Hr Hm1 Hm2.
  destruct (resolvesTo_isDir _ _ _ _ Hr) as (fi & Hs & Hd).
  rewrite (listResourceFiles_resolved _ _ _ _ Hr Hm1 Hm2).
  rewrite (listResourceFiles_resolved _ _ _ _
             (resolves_directory fs dir fi Hs Hd) Hm1 eq_refl).
  simpl. rewrite !sortStrings_elem_of, !elem_of_app.
  rewrite !(elem_of_glob _ _ _ _ fi) by done.
  intros [Hp|[Hp|Hp]]; [left|right; left|right; right];
    destruct Hp as (n & Hn & Hmatch & ->); exists n;
    (split; [done|]); (split; [|done]);
    by eapply matchStar_no_prefix.
Qed.
End ResolverPrefix.

(** ** Handlers: the wrapper that ignores errors *)

Section HandlerLaws.
Context {W Ctx : Type}.

(** X4. [IgnoreErrorHandler] runs the handler once and filters what it
    returns: the effect on the world is the handler's, an error is
    returned exactly when the handler returned it and the matcher
    rejects it, and wrapping twice is wrapping once with the union of
    the two matchers.  So [CreateIgnoreAlreadyExists] returns the
    errors of [Create] that are not already-exists errors. *)
Theorem IgnoreErrorHandler_laws (handler : HandlerFunc W Ctx)
    (matcher1 matcher2 : error → bool) (r : Resources W Ctx)
    (opts : list CreateOption) (ctx : Ctx) (obj : option loc)
    (w : World W) :
  (IgnoreErrorHandler handler matcher1 ctx obj w).2 = (handler ctx obj w).2
  ∧ (∀ e, (IgnoreErrorHandler handler matcher1 ctx obj w).1 = Some e
          ↔ (handler ctx obj w).1 = Some e ∧ matcher1 e = false)
  ∧ IgnoreErrorHandler (IgnoreErrorHandler handler matcher1) matcher2
                       ctx obj w
    = IgnoreErrorHandler handler (λ e, matcher1 e || matcher2 e) ctx obj w
  ∧ (CreateIgnoreAlreadyExists r opts ctx obj w).2
    = (Create r ctx obj opts w).2
  ∧ (∀ e, (CreateIgnoreAlreadyExists r opts ctx obj w).1 = Some e
          ↔ (Create r ctx obj opts w).1 = Some e
            ∧ IsAlreadyExists e = false).
Proof.
  assert (Hfilter : ∀ (h : HandlerFunc W Ctx) m,
    (IgnoreErrorHandler h m ctx obj w).2 = (h ctx obj w).2
    ∧ ∀ e, (IgnoreErrorHandler h m ctx obj w).1 = Some e
           ↔ (h ctx obj w).1 = Some e ∧ m e = false).
  { intros h m. unfold IgnoreErrorHandler, ebind, eret.
    destruct (h ctx obj w) as [[e'|] w']; simpl.
    - destruct (m e') eqn:Hm; simpl; (split; [done|]); intros e; split.
      + done.
      + intros [[= ->] ?]. congruence.
      + intros [= ->]. done.
      + by intros [[= ->] _].
    - split; [done|]. intros e. split; [done|]. by intros [? _]. }
  split; [apply Hfilter|]. split; [apply Hfilter|]. split.
  - unfold IgnoreErrorHandler, ebind, eret.
    destruct (handler ctx obj w) as [[e|] w']; [|done].
    destruct (matcher1 e) eqn:H1; simpl; [done|].
    by destruct (matcher2 e).
  - apply (Hfilter (CreateHandler r opts) IsAlreadyExists).
Qed.
End HandlerLaws.

(** ** Streams: where decoding stops, and what reaches the handler *)

Section StreamEdges.
Context {W Ctx : Type} `{!Codec}.

Lemma DecodeAny_fail b defaults (patches : list (MutateFunc W)) s e :
  decodeError b defaults = Some e →
  DecodeAny (inr b) defaults patches s = ((None, Some e), s).
Proof.
  unfold DecodeAny, decodeError.
  destruct (k8sDecoder b defaults) as [runtimeObj err].
  destruct (IsNotRegisteredError err) eqn:Hreg.
  - destruct (yamlUnmarshal b) as [e'|Object]; [|done].
    by intros [= ->].
  - by intros ->.
Qed.

Lemma DecodeAny_object b defaults (patches : list (MutateFunc W)) s :
  decodeError b defaults = None →
  is_Some (DecodeAny (inr b) defaults patches s).1.1
  ↔ yieldsObject b defaults.
Proof.
  unfold DecodeAny, decodeError, yieldsObject.
  destruct (k8sDecoder b defaults) as [runtimeObj err]. simpl.
  destruct (IsNotRegisteredError err) eqn:Hreg.
  - destruct (yamlUnmarshal b) as [e'|Object]; [done|]. intros _.
    unfold bind, lift, ret.
    destruct (newObject _ _) as [obj w1]. simpl.
    destruct (rangePatches _ _ _) as [[] w2]. simpl. split; eauto.
  - intros ->. destruct runtimeObj as [[v|gvk fields]|]; simpl.
    + unfold bind, lift, ret.
      destruct (newObject _ _) as [obj w1]. simpl.
      destruct (rangePatches _ _ _) as [[] w2]. simpl. split; eauto.
    + split; [by intros [? ?]|]. by intros [?|[? ?]].
    + split; [by intros [? ?]|]. by intros [?|[? ?]].
Qed.

Lemma DecodeAll_loop_calls manifest defaults (patches : list (MutateFunc W))
    objects s :
  calls (DecodeAll_loop manifest defaults patches objects s).2 = calls s.
Proof.
  revert objects s.
  induction manifest as [|[b|e] manifest IH]; intros objects s; simpl;
    [done| |done].
  unfold bind.
  destruct (DecodeAny_shape b defaults patches s) as (obj & s1 & -> & Hc).
  destruct (decodeError b defaults); [done|]. by rewrite IH.
Qed.

(** X5. A failure of [DecodeAny] changes nothing: when it returns an
    error, the object is nil and the store is the one it was given (no
    object was allocated, no patch has run). *)
Theorem DecodeAny_error_leaves_store (manifest : error + string)
    (defaults : option GroupVersionKind) (patches : list (MutateFunc W))
    (s : Store W) (e : error) :
  (DecodeAny manifest defaults patches s).1.2 = Some e →
  DecodeAny manifest defaults patches s = ((None, Some e), s).
Proof.
  destruct manifest as [err|b].
  - unfold DecodeAny, ret. simpl. by intros [= ->].
  - destruct (DecodeAny_shape b defaults patches s) as (obj & s' & Heq & _).
    rewrite Heq. simpl. intros He. rewrite <- Heq.
    by apply DecodeAny_fail.
Qed.

(** X6. [DecodeEach] on a stream whose first bad chunk (a document that
    does not decode, or a read error) comes after [good]: it returns
    the error of that chunk, and has done exactly what it does on
    [good] alone, so the handler was called once for each document of
    [good] and what follows the bad chunk is not looked at. *)
Theorem DecodeEach_stops_at_first_error (ctx : Ctx) (good : list string)
    (bad : Chunk) (rest : Stream) (e : error) defaults
    (handlerFn : HandlerFunc W Ctx) patches s :
  Forall (λ b, decodeError b defaults = None) good →
  chunkError defaults bad = Some e →
  DecodeEach ctx ((Doc <$> good) ++ bad :: rest) defaults handlerFn patches s
  = (Some e,
     (DecodeEach ctx (Doc <$> good) defaults handlerFn patches s).2)
  ∧ ∃ evs,
      calls (DecodeEach ctx ((Doc <$> good) ++ bad :: rest) defaults
                        handlerFn patches s).2
      = calls s ++ evs
      ∧ length evs = length good.
Proof.
  intros Hok Hbad.
  assert (Heq : DecodeEach ctx ((Doc <$> good) ++ bad :: rest) defaults
                           handlerFn patches s
    = (Some e,
       (DecodeEach ctx (Doc <$> good) defaults handlerFn patches s).2)).
  { revert s. induction Hok as [|b docs Hb _ IH]; intros s; simpl.
    - destruct bad as [b|e']; simpl in Hbad.
      + unfold bind. by rewrite (DecodeAny_fail _ _ _ _ _ Hbad).
      + by injection Hbad as ->.
    - unfold bind.
      destruct (DecodeAny_shape b defaults patches s) as (obj & s1 & -> & _).
      rewrite Hb.
      destruct (invoke handlerFn ctx obj s1) as [err s2]. apply IH. }
  split; [exact Heq|]. rewrite Heq. simpl.
  destruct (DecodeEach_all_invoked ctx good defaults handlerFn patches s Hok)
    as (s' & evs & -> & Hc & Hl).
  by exists evs.
Qed.

(** X7. [DecodeEach] hands to the handler what [DecodeAny] returned for
    each document, a nil object included: the handler is called with
    nil exactly for the documents that deserialise to something that is
    no [k8s.Object]. *)
Theorem DecodeEach_nil_objects (ctx : Ctx) (docs : list string) defaults
    (handlerFn : HandlerFunc W Ctx) patches s :
  Forall (λ b, decodeError b defaults = None) docs →
  ∃ evs,
    calls (DecodeEach ctx (Doc <$> docs) defaults handlerFn patches s).2
    = calls s ++ evs
    ∧ Forall2 (λ b ev, is_Some (evObj ev) ↔ yieldsObject b defaults)
              docs evs.
Proof.
  intros Hok. revert s.
  induction Hok as [|b docs Hb _ IH]; intros s; simpl.
  - exists []. by rewrite app_nil_r.
  - unfold bind.
    pose proof (DecodeAny_object b defaults patches s Hb) as Hobj.
    destruct (DecodeAny_shape b defaults patches s) as (obj & s1 & Heq & Hc1).
    rewrite Heq in Hobj |- *. simpl in Hobj.
    rewrite Hb.
    destruct (invoke_spec handlerFn ctx obj s1) as (err & w' & _ & ->).
    destruct (IH (mkStore w' (calls s1 ++ [EvHandler obj err])))
      as (evs & Hc & Hall).
    exists (EvHandler obj err :: evs). split; [|by constructor].
    etrans; [exact Hc|]. simpl. by rewrite Hc1, <- app_assoc.
Qed.
End StreamEdges.

(** ** Directories: a file that fails is not dispatched *)

Section FilesEdges.
Context {W Ctx : Type} `{!Codec} `{!PathLib}.

Lemma DecodeEachFile_loop_app fs (ctx : Ctx) files docss rest defaults
    (handlerFn : HandlerFunc W Ctx) patches s :
  holds fs files docss →
  Forall (Forall (λ b, decodeError b defaults = None)) docss →
  DecodeEachFile_loop fs ctx (files ++ rest) defaults handlerFn patches s
  = DecodeEachFile_loop fs ctx rest defaults handlerFn patches
      (eachFile ctx docss defaults handlerFn patches s).2.
Proof.
  intros Hopen. revert s.
  induction Hopen as [|file docs files docss Hf _ IH];
    intros s Hok; simpl; [done|].
  apply Forall_cons in Hok as [Hdocs Hok].
  rewrite Hf. unfold bind, DecodeAll.
  rewrite (DecodeAll_loop_ok) by done.
  destruct (mapM _ docs s) as [r1 s1]. simpl.
  destruct (rangeInvoke handlerFn ctx r1.*1 s1) as [[] s2].
  rewrite IH by done. unfold ret.
  by destruct (eachFile ctx docss defaults handlerFn patches s2).
Qed.

(** X8. [DecodeEachFile] decodes a whole file before it calls the
    handler: when a file of the directory does not open, or holds a
    chunk that fails after documents that decode, the error is
    returned and the handler was called for the documents of the files
    before it only, for no document of the failing file (where
    [DecodeEach] has dispatched the documents before the failure). *)
Theorem DecodeEachFile_failing_file (fs : FileSystem) (ctx : Ctx)
    (path : string) (files : list string) (file : string)
    (files' : list string) (docss : list (list string)) (e : error)
    defaults (handlerFn : HandlerFunc W Ctx) patches s :
  listResourceFiles fs path = (files ++ file :: files', None) →
  holds fs files docss →
  Forall (Forall (λ b, decodeError b defaults = None)) docss →
  (Open fs file = inl e
   ∨ ∃ good bad rest,
       Open fs file = inr ((Doc <$> good) ++ bad :: rest)
       ∧ Forall (λ b, decodeError b defaults = None) good
       ∧ chunkError defaults bad = Some e) →
  ∃ s' evs,
    DecodeEachFile fs ctx path defaults handlerFn patches s = (Some e, s')
    ∧ calls s' = calls s ++ evs
    ∧ evObj <$> evs = (eachFile ctx docss defaults handlerFn patches s).1
    ∧ length evs = length (concat docss).
Proof.
  intros Hfiles Hopen Hok Hfile.
  unfold DecodeEachFile. rewrite Hfiles.
  rewrite (DecodeEachFile_loop_app _ _ _ docss) by done.
  destruct (eachFile_calls ctx docss defaults handlerFn patches s)
    as (evs & Hc & Ho & Hl).
  destruct (eachFile ctx docss defaults handlerFn patches s) as [objs s1].
  simpl in *.
  destruct Hfile as [Hf|(good & bad & rest & Hf & Hgood & Hbad)];
    rewrite Hf.
  - exists s1, evs. by unfold ret.
  - unfold bind, DecodeAll.
    pose proof (DecodeAll_loop_fail good bad rest e defaults patches [] s1
                  Hgood Hbad) as Hfail.
    pose proof (DecodeAll_loop_calls ((Doc <$> good) ++ bad :: rest)
                  defaults patches [] s1) as Hcalls.
    destruct (DecodeAll_loop _ _ _ _ s1) as [[o err] s2]. simpl in *.
    injection Hfail as -> ->. exists s2, evs. unfold ret.
    by rewrite Hcalls.
Qed.
End FilesEdges.

(** ** The error of a decoder depends on the documents alone *)

Section ErrorsOfDecoders.
Context {W Ctx : Type} `{!Codec} `{!PathLib}.

Lemma DecodeEach_error (ctx : Ctx) manifest defaults
    (handlerFn : HandlerFunc W Ctx) patches s :
  (DecodeEach ctx manifest defaults handlerFn patches s).1
  = streamError defaults manifest.
Proof.
  revert s. induction manifest as [|[b|e] manifest IH]; intros s; simpl;
    [done| |done].
  unfold bind.
  destruct (DecodeAny_shape b defaults patches s) as (obj & s1 & -> & _).
  destruct (decodeError b defaults); [done|].
  destruct (invoke handlerFn ctx obj s1) as [err s2]. apply IH.
Qed.

Lemma DecodeAll_loop_streamError manifest defaults
    (patches : list (MutateFunc W)) objects s :
  (DecodeAll_loop manifest defaults patches objects s).1.2
  = streamError defaults manifest.
Proof.
  revert objects s.
  induction manifest as [|[b|e] manifest IH]; intros objects s; simpl;
    [done| |done].
  unfold bind.
  destruct (DecodeAny_shape b defaults patches s) as (obj & s1 & -> & _).
  destruct (decodeError b defaults); [done|]. apply IH.
Qed.

Lemma DecodeEachFile_loop_error fs (ctx : Ctx) files defaults
    (handlerFn : HandlerFunc W Ctx) patches s :
  (DecodeEachFile_loop fs ctx files defaults handlerFn patches s).1
  = filesError fs defaults files.
Proof.
  revert s. induction files as [|file files IH]; intros s; simpl; [done|].
  destruct (Open fs file) as [e|f]; [done|]. unfold bind, DecodeAll.
  pose proof (DecodeAll_loop_streamError f defaults patches [] s) as He.
  destruct (DecodeAll_loop f defaults patches [] s) as [[o err] s1].
  simpl in He. rewrite <- He. destruct err as [e|]; [done|].
  destruct (rangeInvoke handlerFn ctx o s1) as [[] s2]. apply IH.
Qed.

Lemma DecodeAllFiles_loop_filesError fs files defaults
    (patches : list (MutateFunc W)) objects s :
  (DecodeAllFiles_loop fs files defaults patches objects s).1.2
  = filesError fs defaults files.
Proof.
  revert objects s.
  induction files as [|file files IH]; intros objects s; simpl; [done|].
  destruct (Open fs file) as [e|f]; [done|]. unfold bind, DecodeAll.
  pose proof (DecodeAll_loop_streamError f defaults patches [] s) as He.
  destruct (DecodeAll_loop f defaults patches [] s) as [[o err] s1].
  simpl in He. rewrite <- He. destruct err as [e|]; [done|]. apply IH.
Qed.

(** X9. The error a decoder returns is decided by the files and the
    documents alone: it is the error of the first chunk that fails
    (of the first file that does not open or holds such a chunk, after
    the error of the resolver), whatever the handler, the patches and
    the store are, so the handler variant and the collect variant
    return the same error on the same input. *)
Theorem decoder_error_of_documents (fs : FileSystem) (ctx : Ctx)
    (manifest : Stream) (path : string)
    (defaults : option GroupVersionKind) (handlerFn : HandlerFunc W Ctx)
    (patches patches' : list (MutateFunc W)) (s s' : Store W) :
  (DecodeEach ctx manifest defaults handlerFn patches s).1
  = streamError defaults manifest
  ∧ (DecodeAll manifest defaults patches' s').1.2
    = streamError defaults manifest
  ∧ (DecodeEachFile fs ctx path defaults handlerFn patches s).1
    = (DecodeAllFiles fs path defaults patches' s').1.2
  ∧ (DecodeAllFiles fs path defaults patches' s').1.2
    = match listResourceFiles fs path with
      | (_, Some e) => Some e
      | (files, None) => filesError fs defaults files
      end.
Proof.
  split; [apply DecodeEach_error|].
  split; [apply DecodeAll_loop_streamError|].
  unfold DecodeEachFile, DecodeAllFiles.
  destruct (listResourceFiles fs path) as [files [e|]]; [done|].
  rewrite DecodeEachFile_loop_error, DecodeAllFiles_loop_filesError.
  done.
Qed.
End ErrorsOfDecoders.


(** ** The collected objects are new objects *)

Section CollectIsolation.
Context {W : Type} `{!Codec} `{!PathLib}.

Lemma isolated_app h0 h h' (objects objs : list loc) :
  isolated h0 h objects → isolated h h' objs →
  isolated h0 h' (objects ++ objs).
Proof.
  intros (Hs & Hnd & Hobj & Hsep) (Hs' & Hnd' & Hobj' & Hsep').
  assert (Hold : ∀ o, o ∈ objects →
            footprint h' o = footprint h o ∧ footprint h o ⊆ dom h).
  { intros o Ho. destruct (Hobj o Ho) as [[v Hvo] Hf]. split.
    - apply footprint_weaken; [done|].
      destruct (obj_value_is_object _ _ _ Hvo) as [meta ->]. by eexists.
    - set_solver. }
  pose proof (subseteq_dom _ _ Hs') as Hd.
  pose proof (subseteq_dom _ _ Hs) as Hd0.
  split; [by etrans|]. split; [|split].
  - apply NoDup_app. split; [done|]. split; [|done].
    intros o Ho Ho'.
    destruct (Hold _ Ho) as [_ Hin]. destruct (Hobj' _ Ho') as [_ Hf'].
    pose proof (footprint_self h o). pose proof (footprint_self h' o).
    set_solver.
  - intros o [Ho|Ho]%elem_of_app.
    + destruct (Hobj o Ho) as [[v Hvo] Hf].
      destruct (Hold _ Ho) as [-> _]. split; [|set_solver].
      exists v. by eapply obj_value_weaken.
    + destruct (Hobj' o Ho) as [Hv Hf]. split; [done|]. set_solver.
  - intros o o' [Ho|Ho]%elem_of_app [Ho'|Ho']%elem_of_app Hne.
    + destruct (Hold _ Ho) as [-> _], (Hold _ Ho') as [-> _]. by apply Hsep.
    + destruct (Hold _ Ho) as [-> ?]. destruct (Hobj' _ Ho') as [_ ?].
      set_solver.
    + destruct (Hold _ Ho') as [-> ?]. destruct (Hobj' _ Ho) as [_ ?].
      set_solver.
    + by apply Hsep'.
Qed.

(** The two ways [DecodeAny] ends on a document: with a new object
    that the patches have run on, or with no object and the store it
    was given. *)
Lemma DecodeAny_cases b defaults (patches : list (MutateFunc W)) s :
  (∃ v, DecodeAny (inr b) defaults patches s
        = (let '(obj, w1) := newObject v (world s) in
           ((Some obj, None),
            mkStore (rangePatches patches obj w1).2 (calls s))))
  ∨ (∃ err, DecodeAny (inr b) defaults patches s = ((None, err), s)).
Proof.
  unfold DecodeAny.
  destruct (k8sDecoder b defaults) as [runtimeObj err].
  destruct (IsNotRegisteredError err) eqn:Hreg.
  - destruct (yamlUnmarshal b) as [e|Object]; [right; by eexists|].
    left. exists (unstructuredValue Object). unfold bind, lift, ret.
    destruct (newObject _ _) as [obj w1]. simpl.
    by destruct (rangePatches _ _ _) as [[] w2].
  - destruct err as [e|]; [right; by eexists|].
    destruct runtimeObj as [[v|gvk fields]|]; try (right; by eexists).
    left. exists v. unfold bind, lift, ret.
    destruct (newObject _ _) as [obj w1]. simpl.
    by destruct (rangePatches _ _ _) as [[] w2].
Qed.

Lemma DecodeAny_isolated b defaults (patches : list (MutateFunc W)) s :
  Forall confined patches →
  ∃ obj err s',
    DecodeAny (inr b) defaults patches s = ((obj, err), s')
    ∧ calls s' = calls s
    ∧ isolated (heap (world s)) (heap (world s')) (omap id [obj]).
Proof.
  intros Hc.
  destruct (DecodeAny_cases b defaults patches s) as [[v Heq]|[err Heq]].
  - destruct (newObject_spec v (world s))
      as (obj & w1 & Hnew & Hv & Hsub & Hfresh & _).
    pose proof (newObject_footprint v (world s)) as [Hfp _].
    rewrite Hnew in Heq, Hfp. simpl in Hfp.
    pose proof (rangePatches_modifies patches obj w1 Hc) as Hm.
    destruct (rangePatches patches obj w1) as [[] w2]. simpl in *.
    destruct (modifies_new _ _ _ _ Hsub Hfp Hm) as [Hsub2 Hfp2].
    exists (Some obj), None, (mkStore w2 (calls s)).
    split; [done|]. split; [done|]. simpl.
    apply (isolated_snoc _ (heap (world s)) _ [] obj);
      [by apply isolated_nil|done| |done].
    destruct Hm as (_ & _ & _ & Hval). apply Hval. by eexists.
  - exists None, err, s. split; [done|]. split; [done|].
    by apply isolated_nil.
Qed.

Lemma DecodeAll_loop_isolated manifest defaults
    (patches : list (MutateFunc W)) objects s h0 :
  Forall confined patches →
  isolated h0 (heap (world s)) (omap id objects) →
  ∃ objs err s',
    DecodeAll_loop manifest defaults patches objects s = ((objs, err), s')
    ∧ calls s' = calls s
    ∧ isolated h0 (heap (world s')) (omap id objs).
Proof.
  intros Hc. revert objects s.
  induction manifest as [|[b|e] manifest IH]; intros objects s Hiso; simpl.
  - by exists objects, None, s.
  - unfold bind.
    destruct (DecodeAny_isolated b defaults patches s Hc)
      as (obj & err & s1 & -> & Hc1 & Hiso1).
    pose proof (isolated_app _ _ _ _ _ Hiso Hiso1) as Hiso2.
    destruct err as [e|].
    + exists [], (Some e), s1. split; [done|]. split; [done|].
      apply isolated_nil. by eapply isolated_frame.
    + destruct (IH (objects ++ [obj]) s1) as (objs & err & s' & -> & Hc' & ?).
      { by rewrite omap_app. }
      exists objs, err, s'. split; [done|]. split; [congruence|done].
  - exists [], (Some e), s. split; [done|]. split; [done|].
    apply isolated_nil. by eapply isolated_frame.
Qed.

Lemma DecodeAllFiles_loop_isolated fs files defaults
    (patches : list (MutateFunc W)) objects s h0 :
  Forall confined patches →
  isolated h0 (heap (world s)) (omap id objects) →
  ∃ objs err s',
    DecodeAllFiles_loop fs files defaults patches objects s
    = ((objs, err), s')
    ∧ calls s' = calls s
    ∧ isolated h0 (heap (world s')) (omap id objs).
Proof.
  intros Hc. revert objects s.
  induction files as [|file files IH]; intros objects s Hiso; simpl.
  - by exists objects, None, s.
  - destruct (Open fs file) as [e|f].
    + exists [], (Some e), s. split; [done|]. split; [done|].
      apply isolated_nil. by eapply isolated_frame.
    + unfold bind, DecodeAll.
      destruct (DecodeAll_loop_isolated f defaults patches [] s
                  (heap (world s)) Hc)
        as (o & err & s1 & -> & Hc1 & Hiso1); [by apply isolated_nil|].
      pose proof (isolated_app _ _ _ _ _ Hiso Hiso1) as Hiso2.
      destruct err as [e|].
      * exists [], (Some e), s1. split; [done|]. split; [done|].
        apply isolated_nil. by eapply isolated_frame.
      * destruct (IH (objects ++ o) s1) as (objs & err & s' & -> & Hc' & ?).
        { by rewrite omap_app. }
        exists objs, err, s'. split; [done|]. split; [congruence|done].
Qed.

(** X10. The objects [DecodeAll] and [DecodeAllFiles] return are new
    objects, whatever the documents and the files are: with patches
    that reach the heap through the object they are given only, the
    objects returned (the nil entries apart) are distinct, made of
    cells allocated by the call, no two of them share a cell, every
    cell that was there before keeps its content, and no handler is
    called. *)
Theorem collected_objects_are_new (fs : FileSystem) (manifest : Stream)
    (path : string) (defaults : option GroupVersionKind)
    (patches : list (MutateFunc W)) (s : Store W) :
  Forall confined patches →
  (∃ objs err s',
     DecodeAll manifest defaults patches s = ((objs, err), s')
     ∧ calls s' = calls s
     ∧ isolated (heap (world s)) (heap (world s')) (omap id objs))
  ∧ (∃ objs err s',
       DecodeAllFiles fs path defaults patches s = ((objs, err), s')
       ∧ calls s' = calls s
       ∧ isolated (heap (world s)) (heap (world s')) (omap id objs)).
Proof.
  intros Hc. split.
  - apply DecodeAll_loop_isolated; [done|]. by apply isolated_nil.
  - unfold DecodeAllFiles.
    destruct (listResourceFiles fs path) as [files [e|]].
    + exists [], (Some e), s. split; [done|]. split; [done|].
      by apply isolated_nil.
    + apply DecodeAllFiles_loop_isolated; [done|]. by apply isolated_nil.
Qed.
End CollectIsolation.

(** ** Directories decoded into copies of a given object *)

Section DirectoryCopies.
Context {W : Type} `{!Codec} `{!PathLib}.

Lemma DecodeObjects_isolated (manifest : Stream) (obj : loc)
    (patches : list (MutateFunc W)) s v0 :
  obj_value (heap (world s)) obj = Some v0 →
  Forall confined patches →
  ∃ objs err s',
    DecodeObjects manifest obj patches s = ((objs, err), s')
    ∧ heap (world s) ⊆ heap (world s')
    ∧ isolated (heap (world s)) (heap (world s')) objs
    ∧ calls s' = calls s
    ∧ (err ≠ None → objs = [])
    ∧ (patches = [] → err = None →
       Forall2 (decodedFrom v0 (heap (world s'))) objs manifest).
Proof.
  intros Hv Hc.
  destruct (DeepCopyObject_spec _ _ _ Hv)
    as (base & w1 & Hcopy & Hv1 & Hs1 & _).
  destruct (DecodeObjects_loop_isolated manifest [] base patches []
              (mkStore w1 (calls s)) (heap (world s)) v0 Hc Hv1)
    as (objs & err & s' & Heq & Hs' & Hiso & Hcalls & Hvals).
  { by apply isolated_nil. }
  pose proof (DecodeObjects_loop_error manifest base patches []
                (mkStore w1 (calls s))) as Herr.
  rewrite Heq in Herr. simpl in *.
  exists objs, err, s'.
  split; [by unfold DecodeObjects, bind, lift; rewrite Hcopy|].
  split; [by etrans|]. split; [done|]. split; [done|]. split; [done|].
  intros Hnil Hnone. apply Hvals; [done..|constructor].
Qed.

Lemma DecodeDirectory_loop_isolated fs (files : list string) (obj : loc)
    (patches : list (MutateFunc W)) (objects : list loc) (done_ : Stream)
    s h0 v0 :
  Forall confined patches →
  obj_value h0 obj = Some v0 →
  isolated h0 (heap (world s)) objects →
  ∃ objs err s',
    DecodeDirectory_loop fs files obj patches objects s = ((objs, err), s')
    ∧ isolated h0 (heap (world s')) objs
    ∧ calls s' = calls s
    ∧ (err ≠ None → objs = [])
    ∧ (patches = [] → err = None →
       ∀ streams,
         Forall2 (λ file f, Open fs file = inr f) files streams →
         Forall2 (decodedFrom v0 (heap (world s))) objects done_ →
         Forall2 (decodedFrom v0 (heap (world s'))) objs
                 (done_ ++ concat streams)).
Proof.
  intros Hc Hv0. revert objects done_ s.
  induction files as [|file files IH]; intros objects done_ s Hiso; simpl.
  - exists objects, None, s. split; [done|]. split; [done|].
    split; [done|]. split; [done|].
    intros _ _ streams ->%Forall2_nil_inv_l Hvals. simpl.
    by rewrite app_nil_r.
  - destruct (Open fs file) as [e|f] eqn:Hopen.
    + exists [], (Some e), s. split; [done|].
      split; [apply isolated_nil; by eapply isolated_frame|].
      split; [done|]. split; [done|]. done.
    + unfold bind.
      assert (Hv : obj_value (heap (world s)) obj = Some v0).
      { eapply obj_value_weaken; [|exact Hv0]. by eapply isolated_frame. }
      destruct (DecodeObjects_isolated f obj patches s v0 Hv Hc)
        as (o & err & s1 & -> & Hs1 & Hiso1 & Hc1 & Herr1 & Hvals1).
      pose proof (isolated_app _ _ _ _ _ Hiso Hiso1) as Hiso2.
      destruct err as [e|].
      * exists [], (Some e), s1. split; [done|].
        split; [apply isolated_nil; by eapply isolated_frame|].
        split; [done|]. split; [done|]. done.
      * destruct (IH (objects ++ o) (done_ ++ f) s1 Hiso2)
          as (objs & err & s' & -> & Hiso' & Hc' & Herr' & Hvals').
        exists objs, err, s'. split; [done|]. split; [done|].
        split; [congruence|]. split; [done|].
        intros Hnil Hnone streams Hstreams Hvals.
        apply Forall2_cons_inv_l in Hstreams
          as (f' & streams' & Hf' & Hstreams' & ->).
        assert (f' = f) as -> by congruence. simpl.
        rewrite (assoc_L (++)). apply Hvals'; [done..|].
        apply Forall2_app; [|by apply Hvals1].
        eapply Forall2_impl; [exact Hvals|].
        intros o' chunk. by apply decodedFrom_weaken.
Qed.

(** X11. [DecodeDirectory] gives every document of every file of the
    directory a copy of [obj] of its own: with patches that reach the
    heap through the object they are given only, [obj] and every cell
    that was there before are unchanged, the objects returned are
    distinct new objects that share no cell, no object is returned
    with an error, and without patches the objects hold, in the order
    of the resolved files and of the documents in each, what each
    document decodes to from a copy of the value of [obj]. *)
Theorem DecodeDirectory_copies (fs : FileSystem) (directory : string)
    (obj : loc) (patches : list (MutateFunc W)) (s : Store W)
    (v0 : ObjValue) :
  obj_value (heap (world s)) obj = Some v0 →
  Forall confined patches →
  ∃ objects err s',
    DecodeDirectory fs directory obj patches s = ((objects, err), s')
    ∧ calls s' = calls s
    ∧ obj_value (heap (world s')) obj = Some v0
    ∧ isolated (heap (world s)) (heap (world s')) objects
    ∧ (err ≠ None → objects = [])
    ∧ (patches = [] → err = None →
       ∀ files streams,
         (listResourceFiles fs directory).1 = files →
         Forall2 (λ file f, Open fs file = inr f) files streams →
         Forall2 (decodedFrom v0 (heap (world s'))) objects
                 (concat streams)).
Proof.
  intros Hv Hc. unfold DecodeDirectory.
  destruct (listResourceFiles fs directory) as [files [e|]].
  - exists [], (Some e), s. split; [done|]. split; [done|].
    split; [done|]. split; [by apply isolated_nil|]. done.
  - destruct (DecodeDirectory_loop_isolated fs files obj patches [] [] s
                (heap (world s)) v0 Hc Hv)
      as (objs & err & s' & -> & Hiso & Hc' & Herr & Hvals).
    { by apply isolated_nil. }
    exists objs, err, s'. split; [done|]. split; [done|].
    split; [eapply obj_value_weaken; [|exact Hv]; by eapply isolated_frame|].
    split; [done|]. split; [done|].
    intros Hnil Hnone files' streams <- Hstreams.
    apply (Hvals Hnil Hnone streams Hstreams). constructor.
Qed.
End DirectoryCopies.

(** ** Patches applied one after the other *)

Section PatchSequences.
Context {W : Type}.

Lemma MutateLabels_separated overrides (obj : loc) (w : World W) v :
  obj_value (heap w) obj = Some v → separated (heap w) obj →
  separated (heap (MutateLabels overrides obj w).2) obj.
Proof.
  intros Hv Hsep.
  destruct (obj_value_inv _ _ _ Hv) as (meta & E & Hn & Hns & Hl & Ha).
  rewrite MutateLabels_run, E. simpl.
  destruct (Labels meta) as [l|] eqn:El.
  - destruct (heap w !! l) as [[entries|]|] eqn:Ecell; [|done..]. simpl.
    assert (l ≠ obj) by congruence.
    intros meta' c' l' Hobj Hlab.
    rewrite lookup_insert_ne in Hobj by done.
    by apply (Hsep meta' c' l').
  - simpl. pose proof (fresh_lookup (heap w)) as Hf.
    assert (fresh (dom (heap w)) ≠ obj) by congruence.
    intros meta' c' l' Hobj Hlab.
    rewrite lookup_insert_ne, lookup_insert_eq in Hobj by done.
    injection Hobj as <- <-. simpl in *. injection Hlab as <-.
    intros Heq. rewrite Heq in Ha. simpl in Ha. by rewrite Hf in Ha.
Qed.

Lemma MutateNamespace_value namespace (obj : loc) (w : World W) v :
  obj_value (heap w) obj = Some v →
  obj_value (heap (MutateNamespace namespace obj w).2) obj
  = Some (withNamespace namespace v)
  ∧ (separated (heap w) obj →
     separated (heap (MutateNamespace namespace obj w).2) obj).
Proof.
  intros Hv.
  destruct (obj_value_inv _ _ _ Hv) as (meta & E & Hn & Hns & Hl & Ha).
  unfold MutateNamespace, ebind, eret, SetNamespace. rewrite E. simpl.
  assert (Hmaps : ∀ r x, readMap (heap w) r = Some x →
            readMap (<[obj := ObjCell
                         {| metaName := metaName meta;
                            metaNamespace := namespace;
                            Labels := Labels meta;
                            Annotations := Annotations meta |}
                         (vContent v)]> (heap w)) r = Some x).
  { intros [l|] x Hr; [|done]. simpl in *.
    destruct (heap w !! l) as [[m|]|] eqn:Ecell; try done.
    assert (l ≠ obj) by congruence.
    by rewrite lookup_insert_ne, Ecell by done. }
  split.
  - unfold obj_value. rewrite lookup_insert_eq. simpl.
    rewrite (Hmaps _ _ Hl), (Hmaps _ _ Ha). unfold withNamespace.
    by rewrite Hn.
  - intros Hsep meta' c' l' Hobj Hlab.
    rewrite lookup_insert_eq in Hobj. injection Hobj as <- <-.
    simpl in *. by apply (Hsep meta (vContent v) l').
Qed.

(** X12. [MutateLabels] applied twice to a typed object is [MutateLabels]
    of the two maps together, the second winning on a key of both: the
    name, the namespace, the annotations and the content are as they
    were, and a label is looked up in the second overrides, then in the
    first, then among the labels the object had. *)
Theorem MutateLabels_twice (overrides1 overrides2 : gmap string string)
    (obj : loc) (w : World W) (v : ObjValue) :
  obj_value (heap w) obj = Some v → separated (heap w) obj → isTyped v →
  obj_value (heap (MutateLabels overrides2 obj
                     (MutateLabels overrides1 obj w).2).2) obj
  = Some (withLabels (overrides2 ∪ overrides1) v)
  ∧ obj_value (heap (MutateLabels (overrides2 ∪ overrides1) obj w).2) obj
    = Some (withLabels (overrides2 ∪ overrides1) v)
  ∧ ∀ key,
      (overrides2 ∪ overrides1 ∪ default ∅ (vLabels (vMeta v))) !! key
      = match overrides2 !! key with
        | Some value => Some value
        | None =>
            match overrides1 !! key with
            | Some value => Some value
            | None => vLabels (vMeta v) ≫= (.!! key)
            end
        end.
Proof.
  intros Hv Hsep _. split; [|split].
  - pose proof (MutateLabels_value overrides1 obj w v Hv Hsep) as Hv1.
    pose proof (MutateLabels_separated overrides1 obj w v Hv Hsep) as Hsep1.
    rewrite (MutateLabels_value overrides2 _ _ _ Hv1 Hsep1).
    unfold withLabels. simpl. by rewrite (assoc_L (∪)).
  - by rewrite (MutateLabels_value _ _ _ _ Hv Hsep).
  - intros key. rewrite !lookup_union.
    destruct (overrides2 !! key), (overrides1 !! key),
      (vLabels (vMeta v)) as [labels|]; simpl;
      rewrite ?lookup_empty; try done; by destruct (labels !! key).
Qed.
End PatchSequences.

Section PatchedDocuments.
Context {W : Type} `{!Codec}.

(** X13. The object [DecodeAny] returns for a document of a registered
    kind carries what the predefined patches were given: with
    [MutateNamespace] and [MutateLabels] as patches, in either order,
    it is the deserialised object with that namespace and with the
    overrides among its labels. *)
Theorem DecodeAny_namespace_and_labels (b : string)
    (defaults : option GroupVersionKind) (v : ObjValue)
    (namespace : string) (overrides : gmap string string)
    (patches : list (MutateFunc W)) (s : Store W) :
  k8sDecoder b defaults = (Some (K8sObject v), None) → isTyped v →
  patches = [MutateNamespace namespace; MutateLabels overrides]
  ∨ patches = [MutateLabels overrides; MutateNamespace namespace] →
  ∃ obj s',
    DecodeAny (inr b) defaults patches s = ((Some obj, None), s')
    ∧ obj_value (heap (world s')) obj
      = Some (withNamespace namespace (withLabels overrides v)).
Proof.
  intros Hdec _ Hpatches.
  rewrite (DecodeAny_runs_all_patches _ _ _ _ _ Hdec).
  destruct (newObject_spec v (world s)) as (obj & w1 & Hnew & Hv & _).
  pose proof (newObject_footprint v (world s)) as [_ Hsep].
  rewrite Hnew in Hsep |- *. simpl in Hsep.
  eexists _, _. split; [done|]. simpl.
  destruct Hpatches as [-> | ->]; simpl.
  - destruct (MutateNamespace_value namespace obj w1 v Hv) as [Hv1 Hsep1].
    by rewrite (MutateLabels_value _ _ _ _ Hv1 (Hsep1 Hsep)).
  - pose proof (MutateLabels_value overrides obj w1 v Hv Hsep) as Hv1.
    by destruct (MutateNamespace_value namespace obj _ _ Hv1) as [-> _].
Qed.

(** X14. [DecodeFile]: a file that does not open, is empty, or fails to
    read or to decode at its first document gives that error ([io.EOF]
    for the empty file), and a decode error is returned before any
    patch is called; otherwise the first document is decoded into
    [obj] and nothing after it is read: the result is that of [Decode]
    on that document alone, with confined patches the cells outside
    [obj] keep their content, and without patches [obj] holds what the
    document decodes to from the value it had. *)
Theorem DecodeFile_first_document (fs : FileSystem) (path : string)
    (obj : loc) (patches : list (MutateFunc W)) (s : Store W)
    (v : ObjValue) :
  obj_value (heap (world s)) obj = Some v →
  separated (heap (world s)) obj →
  Forall confined patches →
  match Open fs path with
  | inl e => DecodeFile fs path obj patches s = (Some e, s)
  | inr [] => DecodeFile fs path obj patches s = (Some EOF, s)
  | inr (ReadError e :: _) => DecodeFile fs path obj patches s = (Some e, s)
  | inr (Doc b :: _) =>
      DecodeFile fs path obj patches s = Decode [Doc b] obj patches s
      ∧ match decodeInto b v with
        | inl e =>
            (DecodeFile fs path obj patches s).1 = Some e
            ∧ ∀ patches', DecodeFile fs path obj patches' s
                          = DecodeFile fs path obj patches s
        | inr v' =>
            ∃ s', DecodeFile fs path obj patches s = (None, s')
                  ∧ calls s' = calls s
                  ∧ modifies obj (world s) (world s')
                  ∧ (patches = [] →
                     obj_value (heap (world s')) obj = Some v')
        end
  end.
Proof.
  intros Hv Hsep Hc. unfold DecodeFile.
  destruct (Open fs path) as [e|[|[b|e] rest]]; [done..| |done].
  split; [done|]. unfold Decode, bind, lift, ret.
  pose proof (decoderDecode_value b obj (world s) v Hv Hsep) as Hdec.
  pose proof (decoderDecode_modifies b obj (world s)) as Hm.
  destruct (decodeInto b v) as [e|v'].
  - rewrite Hdec. by split.
  - destruct Hdec as (w' & Heq & Hv'). rewrite Heq in Hm |- *. simpl in *.
    pose proof (rangePatches_modifies patches obj w' Hc) as Hm'.
    destruct (rangePatches patches obj w') as [[] w2] eqn:Hp. simpl in *.
    eexists. split; [done|]. simpl. split; [done|].
    split; [by eapply modifies_trans|].
    intros ->. simpl in Hp. unfold eret in Hp. by injection Hp as <-.
Qed.
End PatchedDocuments.

(** ** The further properties on the test data *)

Section FurtherOnTestdata.
Import Testdata.

Lemma listResourceFiles_no_match_witness :
  listResourceFiles fs "testdata/zzz" = ([], None).
Proof.
  apply (listResourceFiles_no_match fs "testdata/zzz" "testdata" "zzz").
  - change (resolvesTo fs "testdata/zzz" (Dir "testdata/zzz")
                       (Base "testdata/zzz")).
    by apply (resolves_prefix fs _ (ErrNotFound "testdata/zzz")).
  - reflexivity.
  - reflexivity.
  - intros n Hn (mid & ext & _ & Heq).
    apply list_elem_of_In in Hn. simpl in Hn.
    destruct Hn as [<-|[<-|[<-|[<-|[]]]]]; by vm_compute in Heq.
Defined.

Lemma listResourceFiles_error_iff_witness :
  listResourceFiles fs "testdata/a.yaml"
  = ([], Some (Errorf "%q is not a directory. not supported" ["a.yaml"]))
  ∧ ¬ ∃ dir base, resolvesTo fs "testdata/a.yaml" dir base.
Proof.
  split; [by vm_compute|].
  destruct (listResourceFiles_error_iff fs "testdata/a.yaml") as [Hiff _].
  - intros dir base Hr. exfalso.
    destruct Hr as [fi Hs Hd|e Hs _]; vm_compute in Hs; [|done].
    injection Hs as <-. done.
  - apply Hiff. by vm_compute.
Defined.

Lemma DecodeAny_error_leaves_store_witness :
  DecodeAny (inr "bad") None [failingPatch] emptyStore
  = ((None, Some (ErrOther "yaml: bad document")), emptyStore).
Proof.
  apply (DecodeAny_error_leaves_store (inr "bad") None [failingPatch]
           emptyStore (ErrOther "yaml: bad document")).
  by vm_compute.
Defined.

Lemma DecodeEach_stops_at_first_error_witness :
  let r := DecodeEach tt [Doc "a"; Doc "bad"; Doc "c"] None failingHandler
                      [] emptyStore in
  r.1 = Some (ErrOther "yaml: bad document")
  ∧ ∃ evs, calls r.2 = evs ∧ length evs = 1.
Proof.
  destruct (DecodeEach_stops_at_first_error tt ["a"] (Doc "bad") [Doc "c"]
              (ErrOther "yaml: bad document") None failingHandler []
              emptyStore) as [Heq (evs & Hc & Hl)].
  - by repeat constructor.
  - reflexivity.
  - simpl. split; [by vm_compute|]. exists evs. split; [exact Hc|exact Hl].
Defined.

Lemma DecodeEach_nil_objects_witness :
  ∃ evs,
    calls (DecodeEach tt [Doc "a"; Doc "list"; Doc "crd"] None
                      failingHandler [] emptyStore).2
    = evs
    ∧ Forall2 (λ b ev, is_Some (evObj ev) ↔ yieldsObject b None)
              ["a"; "list"; "crd"] evs.
Proof.
  apply (DecodeEach_nil_objects tt ["a"; "list"; "crd"] None failingHandler
           [] emptyStore).
  by repeat constructor.
Defined.

Lemma DecodeEachFile_failing_file_witness :
  ∃ s' evs,
    DecodeEachFile Brokendata.brokenfs tt "broken" None failingHandler []
                   emptyStore
    = (Some (ErrOther "yaml: bad document"), s')
    ∧ calls s' = evs
    ∧ evObj <$> evs
      = (eachFile tt [["a1"; "a2"]] None failingHandler [] emptyStore).1
    ∧ length evs = 2.
Proof.
  apply (DecodeEachFile_failing_file Brokendata.brokenfs tt "broken"
           ["broken/a.yaml"] "broken/b.yaml" ["broken/c.yaml"]
           [["a1"; "a2"]] (ErrOther "yaml: bad document") None
           failingHandler [] emptyStore).
  - by vm_compute.
  - by repeat constructor.
  - by repeat constructor.
  - right. exists ["b1"], (Doc "bad"), [Doc "b3"].
    split; [reflexivity|]. split; [by repeat constructor|reflexivity].
Defined.

Lemma collected_objects_are_new_witness :
  let patches := [MutateNamespace "ns"; MutateLabels injected] in
  (∃ objs err s',
     DecodeAll [Doc "a"; Doc "list"; Doc "c"] None patches emptyStore
     = ((objs, err), s')
     ∧ calls s' = []
     ∧ isolated ∅ (heap (world s')) (omap id objs))
  ∧ (∃ objs err s',
       DecodeAllFiles fs "testdata" None patches emptyStore
       = ((objs, err), s')
       ∧ calls s' = []
       ∧ isolated ∅ (heap (world s')) (omap id objs)).
Proof.
  apply (collected_objects_are_new fs [Doc "a"; Doc "list"; Doc "c"]
           "testdata" None [MutateNamespace "ns"; MutateLabels injected]
           emptyStore).
  constructor; [apply MutateNamespace_confined|].
  constructor; [apply MutateLabels_confined|constructor].
Defined.

Lemma DecodeDirectory_copies_witness :
  ∃ objects err s',
    DecodeDirectory fs "testdata" webObj [MutateLabels injected] webStore
    = ((objects, err), s')
    ∧ calls s' = []
    ∧ obj_value (heap (world s')) webObj = Some web
    ∧ isolated (heap webWorld) (heap (world s')) objects
    ∧ (err ≠ None → objects = []).
Proof.
  destruct (DecodeDirectory_copies fs "testdata" webObj
              [MutateLabels injected] webStore web)
    as (objects & err & s' & Heq & Hc & Hv & Hiso & Herr & _).
  - by vm_compute.
  - constructor; [apply MutateLabels_confined|constructor].
  - exists objects, err, s'. auto.
Defined.

Lemma MutateLabels_twice_witness :
  obj_value
    (heap (MutateLabels {[ "app" := "api" ]} webObj
             (MutateLabels injected webObj webWorld).2).2) webObj
  = Some (withLabels ({[ "app" := "api" ]} ∪ injected) web).
Proof.
  destruct (MutateLabels_twice injected {[ "app" := "api" ]} webObj
              webWorld web) as [Htwice _].
  - by vm_compute.
  - exact (proj2 (newObject_footprint web emptyWorld)).
  - by eexists _, _.
  - exact Htwice.
Defined.

Lemma DecodeAny_namespace_and_labels_witness :
  ∃ obj s',
    DecodeAny (inr "a") None [MutateNamespace "ns"; MutateLabels injected]
              emptyStore
    = ((Some obj, None), s')
    ∧ obj_value (heap (world s')) obj
      = Some (withNamespace "ns" (withLabels injected (named "a" None))).
Proof.
  apply (DecodeAny_namespace_and_labels "a" None (named "a" None) "ns"
           injected [MutateNamespace "ns"; MutateLabels injected]
           emptyStore).
  - reflexivity.
  - by eexists _, _.
  - by left.
Defined.

Lemma DecodeFile_first_document_witness :
  DecodeFile fs "testdata/b.yml" webObj [MutateLabels injected] webStore
  = Decode [Doc "b1"] webObj [MutateLabels injected] webStore
  ∧ ∃ s',
      DecodeFile fs "testdata/b.yml" webObj [MutateLabels injected] webStore
      = (None, s')
      ∧ calls s' = []
      ∧ modifies webObj webWorld (world s').
Proof.
  pose proof (DecodeFile_first_document fs "testdata/b.yml" webObj
                [MutateLabels injected] webStore web) as Hfile.
  destruct Hfile as [Heq (s' & Hs' & Hc & Hm & _)].
  - by vm_compute.
  - exact (proj2 (newObject_footprint web emptyWorld)).
  - constructor; [apply MutateLabels_confined|constructor].
  - split; [exact Heq|]. exists s'. auto.
Defined.

Lemma listResourceFiles_prefix_narrows_witness :
  "testdata/b.yml" ∈ (listResourceFiles fs "testdata").1.
Proof.
  apply (listResourceFiles_prefix_narrows fs "testdata/b" "testdata" "b").
  - change (resolvesTo fs "testdata/b" (Dir "testdata/b")
                       (Base "testdata/b")).
    by apply (resolves_prefix fs _ (ErrNotFound "testdata/b")).
  - reflexivity.
  - reflexivity.
  - apply (bool_decide_unpack _). by vm_compute.
Defined.

(** The directory with a broken file: the handler variant has called
    the handler for the two documents of the first file and stops; the
    collect variant returns nothing; [DecodeEach] on the broken file
    itself has called the handler once. *)
Example broken_directory :
  (let '(err, s) := DecodeEachFile Brokendata.brokenfs tt "broken" None
                                   failingHandler [] emptyStore in
   (err, names s (evObj <$> calls s)))
  = (Some (ErrOther "yaml: bad document"), [Some "a1"; Some "a2"])
  ∧ (DecodeAllFiles Brokendata.brokenfs "broken" None [] emptyStore).1
    = ([], Some (ErrOther "yaml: bad document"))
  ∧ (let '(err, s) := DecodeEach tt [Doc "b1"; Doc "bad"; Doc "b3"] None
                                 failingHandler [] emptyStore in
     (err, names s (evObj <$> calls s)))
    = (Some (ErrOther "yaml: bad document"), [Some "b1"]).
Proof. by vm_compute. Qed.
End FurtherOnTestdata.
